(** * astvisualizer: the AST-to-graph walk and the yaml.load classifier

    A shallow embedding of [astvisualizer.py].  The script parses a file,
    collects the calls to [yaml.load] together with the name of the
    enclosing function, sorts them into an external and an internal set,
    and then walks the tree with [add_node], which fills a Graphviz
    [Digraph] with one statement per node and per structural reference.

    Python objects are represented by their class name, their identity
    ([id(node)]) and their fields in [_fields] order; a tree in which one
    object is referenced from several places is the unfolding in which
    every occurrence carries the same identity.  Characters of a Rocq
    string stand for the code points of a Python [str].  [add_node] is the
    function as the script defines it; [add_node_within] is the function
    as the interpreter runs it, under its recursion limit.  The visitor is
    modelled without that limit. *)

From Stdlib Require Import Ascii.
From stdpp Require Import gmap strings list pretty.

Set Warnings "-register-all,-clear-no-such-hyp".

(** ** Exceptions *)

Inductive exn :=
| AttributeError
| TypeError
| IndexError
| ValueError
| RecursionError   (* raised by the interpreter when its stack of calls is full *)
| Unmodelled.      (* an object whose rendering or truth value the model does not fix *)

Inductive result (A : Type) :=
| Ok (a : A)
| Raise (e : exn).
Arguments Ok {A} a.
Arguments Raise {A} e.

#[global] Instance result_ret : MRet result := fun A a => Ok a.
#[global] Instance result_bind : MBind result := fun A B f m =>
  match m with
  | Ok a => f a
  | Raise e => Raise e
  end.

Definition is_ok {A} (r : result A) : bool :=
  match r with Ok _ => true | Raise _ => false end.

(** ** Syntax-tree objects *)

Inductive node :=
| Node (oid : N) (cls : string) (fields : list (string * value))
with value :=
| VNode (n : node)
| VList (items : list value)
| VStr (s : string)
| VInt (z : Z)
| VBool (b : bool)
| VNone
| VOther (rendering : string).  (* float, bytes, complex, Ellipsis: known by its str() *)

Definition oid (n : node) : N := let 'Node o _ _ := n in o.
Definition cls (n : node) : string := let 'Node _ c _ := n in c.
Definition fields (n : node) : list (string * value) := let 'Node _ _ fs := n in fs.

#[global] Instance exn_eq_dec : EqDecision exn.
Proof. solve_decision. Defined.

Fixpoint assoc (name : string) (fs : list (string * value)) : option value :=
  match fs with
  | [] => None
  | (k, v) :: fs' => if String.eqb k name then Some v else assoc name fs'
  end.

(** [obj.name]: only syntax-tree objects carry the attributes the script reads. *)
Definition getattr (v : value) (name : string) : result value :=
  match v with
  | VNode n =>
      match assoc name (fields n) with
      | Some x => Ok x
      | None => Raise AttributeError
      end
  | _ => Raise AttributeError
  end.

(** [isinstance(v, ast.C)] *)
Definition isinstance (v : value) (c : string) : bool :=
  match v with
  | VNode n => String.eqb (cls n) c
  | _ => false
  end.

(** [type(v).__name__] *)
Definition type_name (v : value) : result string :=
  match v with
  | VNode n => Ok (cls n)
  | VList _ => Ok "list"
  | VStr _ => Ok "str"
  | VInt _ => Ok "int"
  | VBool _ => Ok "bool"
  | VNone => Ok "NoneType"
  | VOther _ => Raise Unmodelled
  end.

(** The interpreter's default limit on the number of digits of an integer
    that is turned into text. *)
Definition int_max_str_digits : nat := 4300.

(** [str(v)], as an f-string field renders it. *)
Definition py_str (v : value) : result string :=
  match v with
  | VStr s => Ok s
  | VInt z =>
      if Nat.ltb int_max_str_digits (String.length (pretty (Z.abs z)))
      then Raise ValueError
      else Ok (pretty z)
  | VBool true => Ok "True"
  | VBool false => Ok "False"
  | VNone => Ok "None"
  | VOther r => Ok r
  | VNode _ | VList _ => Raise Unmodelled
  end.

(** [len(v)] *)
Definition py_len (v : value) : result nat :=
  match v with
  | VList l => Ok (length l)
  | VStr s => Ok (String.length s)
  | VOther _ => Raise Unmodelled
  | _ => Raise TypeError
  end.

(** Truth value of [v] in a condition. *)
Definition truthy (v : value) : result bool :=
  match v with
  | VList l => Ok (negb (bool_decide (l = [])))
  | VStr s => Ok (negb (String.eqb s ""))
  | VInt z => Ok (negb (Z.eqb z 0))
  | VBool b => Ok b
  | VNone => Ok false
  | VNode _ => Ok true
  | VOther _ => Raise Unmodelled
  end.

(** [v[0]] *)
Definition item0 (v : value) : result value :=
  match v with
  | VList (x :: _) => Ok x
  | VList [] => Raise IndexError
  | VStr (String c _) => Ok (VStr (String c ""))
  | VStr "" => Raise IndexError
  | VOther _ => Raise Unmodelled
  | _ => Raise TypeError
  end.

Fixpoint chars (s : string) : list value :=
  match s with
  | "" => []
  | String c s' => VStr (String c "") :: chars s'
  end.

(** [for x in v] *)
Definition py_iter (v : value) : result (list value) :=
  match v with
  | VList l => Ok l
  | VStr s => Ok (chars s)
  | VOther _ => Raise Unmodelled
  | _ => Raise TypeError
  end.

(** [sep.join(parts)]: every part must be a [str]. *)
Fixpoint join (sep : string) (parts : list value) : result string :=
  match parts with
  | [] => Ok ""
  | [VStr s] => Ok s
  | VStr s :: rest => r ← join sep rest; Ok (s +:+ sep +:+ r)
  | _ => Raise TypeError
  end.

Fixpoint mapM {A B} (f : A → result B) (l : list A) : result (list B) :=
  match l with
  | [] => Ok []
  | x :: l' => y ← f x; ys ← mapM f l'; Ok (y :: ys)
  end.

(** ** Children and traversal orders *)

Fixpoint foldM {A S : Type} (f : S → A → result S) (l : list A) (s : S) : result S :=
  match l with
  | [] => Ok s
  | x :: l' => s' ← f s x; foldM f l' s'
  end.

(** The sub-nodes of a list field, as [ast.iter_child_nodes] and the loops
    of the script select them. *)
Definition list_nodes (items : list value) : list node :=
  omap (fun e => match e with VNode c => Some c | _ => None end) items.

(** [ast.iter_child_nodes(n)] *)
Definition iter_child_nodes (n : node) : list node :=
  flat_map (fun fv => match fv.2 with
                      | VNode c => [c]
                      | VList items => list_nodes items
                      | _ => []
                      end) (fields n).

(** The node and all the nodes below it, in pre-order. *)
Fixpoint subtree (n : node) : list node :=
  let 'Node _ _ fs := n in
  n :: (fix subtree_fields (fs : list (string * value)) : list node :=
          match fs with
          | [] => []
          | (_, v) :: fs' =>
              match v with
              | VNode c => subtree c
              | VList items =>
                  (fix subtree_items (l : list value) : list node :=
                     match l with
                     | [] => []
                     | VNode c :: l' => subtree c ++ subtree_items l'
                     | _ :: l' => subtree_items l'
                     end) items
              | _ => []
              end ++ subtree_fields fs'
          end) fs.

Fixpoint depth (n : node) : nat :=
  let 'Node _ _ fs := n in
  S ((fix depth_fields (fs : list (string * value)) : nat :=
        match fs with
        | [] => 0
        | (_, v) :: fs' =>
            Nat.max
              match v with
              | VNode c => depth c
              | VList items =>
                  (fix depth_items (l : list value) : nat :=
                     match l with
                     | [] => 0
                     | VNode c :: l' => Nat.max (depth c) (depth_items l')
                     | _ :: l' => depth_items l'
                     end) items
              | _ => 0
              end
              (depth_fields fs')
        end) fs).

(** [ast.walk(n)]: the nodes come off a queue that starts with [n] and
    receives the children of each node taken from it, that is, level by
    level; below the deepest level the queue is empty. *)
Fixpoint walk_levels (levels : nat) (queue : list node) : list node :=
  match levels with
  | 0 => []
  | S k => queue ++ walk_levels k (flat_map iter_child_nodes queue)
  end.

Definition walk (n : node) : list node := walk_levels (depth n) [n].

(** [f"{field}[{idx}]"] *)
Definition item_label (field : string) (idx : nat) : string :=
  field +:+ "[" +:+ pretty idx +:+ "]".

(** The structural references leaving a node, in the order in which
    [add_node] follows them, each with the label of its edge. *)
Fixpoint item_refs (field : string) (idx : nat) (items : list value)
  : list (string * node) :=
  match items with
  | [] => []
  | VNode c :: l' => (item_label field idx, c) :: item_refs field (S idx) l'
  | _ :: l' => item_refs field (S idx) l'
  end.

Definition field_refs (fv : string * value) : list (string * node) :=
  match fv.2 with
  | VNode c => [(fv.1, c)]
  | VList items => item_refs fv.1 0 items
  | _ => []
  end.

Definition child_refs (n : node) : list (string * node) :=
  flat_map field_refs (fields n).

(** ** Finding and classifying the yaml.load calls (lines 10-45) *)

(** [v == s] for a string literal [s] *)
Definition eq_str (v : value) (s : string) : bool :=
  match v with
  | VStr s' => String.eqb s' s
  | _ => false
  end.

(** The generator expression of [is_external_input], consumed by [any]. *)
Fixpoint any_request (ns : list node) : result bool :=
  match ns with
  | [] => Ok false
  | n :: ns' =>
      hit ← (if String.eqb (cls n) "Name"
             then i ← getattr (VNode n) "id"; Ok (eq_str i "request")
             else Ok false);
      if hit : bool then Ok true else any_request ns'
  end.

Definition is_external_input (v : value) : result bool :=
  match v with
  | VNone => Ok false
  | VNode n => any_request (walk n)
  | _ => Raise AttributeError     (* ast.walk reads [_fields] *)
  end.

(** The visitor object and the global list it appends to. *)
Record finder := mkFinder {
  current_func : value;
  yaml_load_calls : list (node * value)
}.

(** The test of [visit_Call]: the callee is [yaml.load]. *)
Definition is_yaml_load (n : node) : result bool :=
  func ← getattr (VNode n) "func";
  if isinstance func "Attribute" then
    a ← getattr func "attr";
    if eq_str a "load" then
      v ← getattr func "value";
      if isinstance v "Name" then
        i ← getattr v "id"; Ok (eq_str i "yaml")
      else Ok false
    else Ok false
  else Ok false.

(** [NodeVisitor.visit], dispatching on the class name to [visit_FunctionDef],
    [visit_ClassDef] and [visit_Call] of the script, to the [visit_Constant]
    that [NodeVisitor] itself defines (it reads [node.value], finds none of
    the old [visit_Num], [visit_Str], ... on this visitor and goes on with
    [generic_visit]), or to [generic_visit]. *)
Fixpoint visit (n : node) (s : finder) : result finder :=
  let 'Node _ c fs := n in
  let generic_visit :=
    (fix visit_fields (fs : list (string * value)) (s : finder) : result finder :=
       match fs with
       | [] => Ok s
       | (_, v) :: fs' =>
           s1 ← match v with
                | VList items =>
                    (fix visit_items (l : list value) (s : finder) : result finder :=
                       match l with
                       | [] => Ok s
                       | VNode e :: l' => s1 ← visit e s; visit_items l' s1
                       | _ :: l' => visit_items l' s
                       end) items s
                | VNode e => visit e s
                | _ => Ok s
                end;
           visit_fields fs' s1
       end) fs in
  if String.eqb c "FunctionDef" then
    let prev := current_func s in
    name ← getattr (VNode n) "name";
    s1 ← generic_visit (mkFinder name (yaml_load_calls s));
    Ok (mkFinder prev (yaml_load_calls s1))
  else if String.eqb c "ClassDef" then
    generic_visit s
  else if String.eqb c "Call" then
    hit ← is_yaml_load n;
    generic_visit
      (if hit : bool
       then mkFinder (current_func s) (yaml_load_calls s ++ [(n, current_func s)])
       else s)
  else if String.eqb c "Constant" then
    _ ← getattr (VNode n) "value";
    generic_visit s
  else generic_visit s.

(** [generic_visit] over the children, one [visit] each. *)
Definition visit_children (n : node) (s : finder) : result finder :=
  foldM (fun s c => visit c s) (iter_child_nodes n) s.

(** Line 34: [FindYamlLoad().visit(tree)] on the empty global list. *)
Definition find_yaml_load (tree : node) : result (list (node * value)) :=
  s ← visit tree (mkFinder VNone []); Ok (yaml_load_calls s).

(** Line 41: [call_node.args[0] if call_node.args else None] *)
Definition first_arg (call_node : node) : result value :=
  args ← getattr (VNode call_node) "args";
  t ← truthy args;
  if t : bool then item0 args else Ok VNone.

(** Lines 41-42: the condition under which a call is marked external. *)
Definition is_external (call_node : node) (func_name : value) : result bool :=
  a ← first_arg call_node;
  if eq_str func_name "_external_load" then Ok true else is_external_input a.

(** One round of the loop of lines 39-45 on the two global sets. *)
Definition classify_call (sets : gset N * gset N) (entry : node * value)
  : result (gset N * gset N) :=
  ext ← is_external entry.1 entry.2;
  if ext : bool
  then Ok (sets.1 ∪ {[ oid entry.1 ]}, sets.2)
  else Ok (sets.1, sets.2 ∪ {[ oid entry.1 ]}).

Definition classify_calls (sets : gset N * gset N) (calls : list (node * value))
  : result (gset N * gset N) :=
  foldM classify_call calls sets.

(** Lines 34-45: the two sets the walk consults. *)
Definition classify (tree : node) : result (gset N * gset N) :=
  calls ← find_yaml_load tree; classify_calls (∅, ∅) calls.

(** ** Label synthesis (lines 66-160) *)

Definition newline : ascii := "010"%char.
Definition backslash : ascii := "092"%char.
Definition dquote : string := String "034"%char EmptyString.

(** [val.replace(newline, backslash + n)] *)
Fixpoint escape_newlines (s : string) : string :=
  match s with
  | EmptyString => EmptyString
  | String c s' =>
      if Ascii.eqb c newline
      then String backslash (String "n"%char (escape_newlines s'))
      else String c (escape_newlines s')
  end.

(** [s[:k]] *)
Fixpoint str_take (k : nat) (s : string) : string :=
  match k, s with
  | S k', String c s' => String c (str_take k' s')
  | _, _ => EmptyString
  end.

(** The text between the quotes of a string constant's label (lines 122-124). *)
Definition const_payload (val : string) : string :=
  let s := escape_newlines val in
  if Nat.ltb 20 (String.length s) then str_take 17 s +:+ "..." else s.

(** [alias.name for alias in node.names] *)
Definition alias_names (n : node) : result (list value) :=
  names ← getattr (VNode n) "names";
  aliases ← py_iter names;
  mapM (fun alias => getattr alias "name") aliases.

(** Lines 92-104: the name shown for the callee of a call. *)
Definition callee_name (n : node) : result value :=
  func ← getattr (VNode n) "func";
  if isinstance func "Name" then
    getattr func "id"
  else if isinstance func "Attribute" then
    v ← getattr func "value";
    if isinstance v "Name" then
      i ← getattr v "id"; a ← py_str i;
      fa ← getattr func "attr"; b ← py_str fa;
      Ok (VStr (a +:+ "." +:+ b))
    else
      inner ← (if isinstance v "Attribute"
               then vv ← getattr v "value"; Ok (isinstance vv "Name")
               else Ok false);
      if inner : bool then
        vv ← getattr v "value";
        i ← getattr vv "id"; a ← py_str i;
        va ← getattr v "attr"; b ← py_str va;
        fa ← getattr func "attr"; c ← py_str fa;
        Ok (VStr (a +:+ "." +:+ b +:+ "." +:+ c))
      else getattr func "attr"
  else Ok (VStr (cls n)).

(** Line 105: the label of a call before any marking. *)
Definition call_label (n : node) : result string :=
  func_name ← callee_name n;
  f ← py_str func_name;
  args ← getattr (VNode n) "args";
  k ← py_len args;
  Ok ("Call: " +:+ f +:+ " (args=" +:+ pretty k +:+ ")").

Section Labels.

Variables external_calls internal_calls : gset N.

(** Whether the node is a call present in one of the two sets (line 163). *)
Definition marked (n : node) : bool :=
  String.eqb (cls n) "Call"
  && (bool_decide (oid n ∈ external_calls) || bool_decide (oid n ∈ internal_calls)).

(** The label of a node, and the fill colour of the statement that the call
    branch issues itself (lines 109 and 112) when the call is in a set. *)
Definition node_label (n : node) : result (string * option string) :=
  let v := VNode n in
  let plain (r : result string) := l ← r; Ok (l, @None string) in
  let is_a c := String.eqb (cls n) c in
  if is_a "FunctionDef" then
    plain (name ← getattr v "name"; a ← py_str name;
           args ← getattr v "args"; aa ← getattr args "args"; k ← py_len aa;
           Ok ("FunctionDef: name=" +:+ a +:+ ", args=" +:+ pretty k))
  else if is_a "ClassDef" then
    plain (name ← getattr v "name"; a ← py_str name;
           Ok ("ClassDef: name=" +:+ a))
  else if is_a "Import" then
    plain (mods ← alias_names n; j ← join ", " mods;
           Ok ("Import: " +:+ j))
  else if is_a "ImportFrom" then
    plain (mods ← alias_names n;
           m ← getattr v "module"; a ← py_str m;
           j ← join ", " mods;
           Ok ("ImportFrom: " +:+ a +:+ ", names=" +:+ j))
  else if is_a "Assign" then
    plain (targets ← getattr v "targets"; k ← py_len targets;
           single ← (if Nat.eqb k 1
                     then t ← item0 targets; Ok (isinstance t "Name")
                     else Ok false);
           if single : bool then
             t ← item0 targets; i ← getattr t "id"; a ← py_str i;
             Ok ("Assign: " +:+ a +:+ " = ...")
           else Ok "Assign")
  else if is_a "Return" then plain (Ok "Return")
  else if is_a "Call" then
    label ← call_label n;
    if bool_decide (oid n ∈ external_calls) then
      Ok (label +:+ " [external]", Some "lightcoral")
    else if bool_decide (oid n ∈ internal_calls) then
      Ok (label +:+ " [internal]", Some "lightblue")
    else Ok (label, None)
  else if is_a "Attribute" then
    plain (a ← getattr v "attr"; s ← py_str a; Ok ("Attribute: ." +:+ s))
  else if is_a "Name" then
    plain (c ← getattr v "ctx"; ctx ← type_name c;
           i ← getattr v "id"; s ← py_str i;
           Ok ("Name: " +:+ s +:+ " (" +:+ ctx +:+ ")"))
  else if is_a "Constant" then
    plain (val ← getattr v "value";
           match val with
           | VStr s => Ok ("Constant: " +:+ dquote +:+ const_payload s +:+ dquote)
           | _ => s ← py_str val; Ok ("Constant: " +:+ s)
           end)
  else if is_a "arg" then
    plain (a ← getattr v "arg"; s ← py_str a; Ok ("arg: " +:+ s))
  else if is_a "For" then plain (Ok "For")
  else if is_a "If" then plain (Ok "If")
  else if is_a "While" then plain (Ok "While")
  else if is_a "Try" then plain (Ok "Try")
  else if is_a "ExceptHandler" then plain (Ok "ExceptHandler")
  else if is_a "List" then
    plain (e ← getattr v "elts"; k ← py_len e; Ok ("List (elts=" +:+ pretty k +:+ ")"))
  else if is_a "Tuple" then
    plain (e ← getattr v "elts"; k ← py_len e; Ok ("Tuple (elts=" +:+ pretty k +:+ ")"))
  else if is_a "Dict" then
    plain (keys ← getattr v "keys"; t ← truthy keys;
           count ← (if t : bool then py_len keys else Ok 0);
           Ok ("Dict (pairs=" +:+ pretty count +:+ ")"))
  else if is_a "Set" then
    plain (e ← getattr v "elts"; k ← py_len e; Ok ("Set (elts=" +:+ pretty k +:+ ")"))
  else if is_a "ListComp" then plain (Ok "ListComp")
  else if is_a "GeneratorExp" then plain (Ok "GeneratorExp")
  else if is_a "comprehension" then plain (Ok "comprehension")
  else if is_a "With" then plain (Ok "With")
  else if is_a "withitem" then plain (Ok "withitem")
  else plain (Ok (cls n)).

End Labels.

(** ** The graph under construction (lines 48-54) *)

Inductive stmt :=
| SAttr (kw : string) (attrs : list (string * string))
| SNode (name label : string) (fillcolor : option string)
| SEdge (tail head label : string).

Record state := mkState {
  node_counter : nat;
  node_ids : gmap N string;
  dot : list stmt
}.

Definition initial_state : state :=
  mkState 0 ∅
    [ SAttr "graph" [("bgcolor", "white"); ("rankdir", "LR")];
      SAttr "node" [("style", "filled"); ("fontcolor", "black");
                    ("color", "black"); ("fillcolor", "white")];
      SAttr "edge" [("fontcolor", "black")] ].

(** [f"node{k}"] *)
Definition node_name (k : nat) : string := "node" +:+ pretty k.

Section Walk.

Variables external_calls internal_calls : gset N.

(** Lines 59-167: look the node up, or give it the next name and declare it. *)
Definition register (n : node) (st : state) : result (string * state) :=
  match node_ids st !! oid n with
  | None =>
      let nid := node_name (node_counter st) in
      '(label, early) ← node_label external_calls internal_calls n;
      let in_branch :=
        match early with Some colour => [SNode nid label (Some colour)] | None => [] end in
      let at_end :=
        if marked external_calls internal_calls n then [] else [SNode nid label None] in
      Ok (nid, mkState (S (node_counter st)) (<[oid n := nid]> (node_ids st))
                       (dot st ++ in_branch ++ at_end))
  | Some nid => Ok (nid, st)
  end.

(** Lines 170-174: the edge from the parent, when there is one. *)
Definition add_edge (parent_id field_name : option string) (nid : string) (st : state)
  : state :=
  match parent_id with
  | Some p =>
      if String.eqb p EmptyString then st
      else
        let edge_label := match field_name with Some f => f | None => EmptyString end in
        mkState (node_counter st) (node_ids st) (dot st ++ [SEdge p nid edge_label])
  | None => st
  end.

(** [add_node(node, parent_id, field_name)] *)
Fixpoint add_node (n : node) (parent_id field_name : option string) (st : state)
  : result state :=
  let 'Node _ _ fs := n in
  '(nid, st1) ← register n st;
  let st2 := add_edge parent_id field_name nid st1 in
  (fix add_fields (fs : list (string * value)) (st : state) : result state :=
     match fs with
     | [] => Ok st
     | (field, v) :: fs' =>
         st' ← match v with
               | VNode c => add_node c (Some nid) (Some field) st
               | VList items =>
                   (fix add_items (l : list value) (idx : nat) (st : state)
                      : result state :=
                      match l with
                      | [] => Ok st
                      | VNode c :: l' =>
                          st' ← add_node c (Some nid) (Some (item_label field idx)) st;
                          add_items l' (S idx) st'
                      | _ :: l' => add_items l' (S idx) st
                      end) items 0 st
               | _ => Ok st
               end;
         add_fields fs' st'
     end) fs st2.

(** The loop of lines 177-184 over the references of [child_refs]. *)
Definition add_children (nid : string) (n : node) (st : state) : result state :=
  foldM (fun st lc => add_node lc.2 (Some nid) (Some lc.1) st) (child_refs n) st.

(** [add_node] as the interpreter runs it: [frames] is the number of nested
    activations of [add_node] for which the stack of calls still has room
    (the calls made inside an activation are counted with it; the default
    limit of 1000 calls in all bounds it), and an activation that finds no
    room raises [RecursionError].  The script neither catches the
    exception nor counts the depth itself. *)
Fixpoint add_node_within (frames : nat) (n : node) (parent_id field_name : option string)
    (st : state) : result state :=
  match frames with
  | 0 => Raise RecursionError
  | S room =>
      '(nid, st1) ← register n st;
      foldM (fun st lc => add_node_within room lc.2 (Some nid) (Some lc.1) st)
            (child_refs n) (add_edge parent_id field_name nid st1)
  end.

(** Line 187: [add_node(tree)] on the fresh graph. *)
Definition build_graph (tree : node) : result state :=
  add_node tree None None initial_state.

End Walk.

(** Lines 34-187: classification, then the walk. *)
Definition main (tree : node) : result state :=
  '(external_calls, internal_calls) ← classify tree;
  build_graph external_calls internal_calls tree.

(** ** Vocabulary of the statements *)

(** What a visit leaves behind: the function name is restored, and the
    entries appended are the calls to [yaml.load] of the subtree. *)
Definition visited (n : node) (s s' : finder) : Prop :=
  current_func s' = current_func s ∧
  ∃ new, yaml_load_calls s' = yaml_load_calls s ++ new ∧
         ∀ e, e ∈ new → e.1 ∈ subtree n ∧ cls e.1 = "Call" ∧ is_yaml_load e.1 = Ok true.


(** The structural references below a node, in the order in which the walk
    follows them: the identity of the referring node, the label of the
    edge, and the node referred to. *)
Fixpoint visits (n : node) : list (N * string * node) :=
  let 'Node o _ fs := n in
  (fix visits_fields (fs : list (string * value)) : list (N * string * node) :=
     match fs with
     | [] => []
     | (f, v) :: fs' =>
         match v with
         | VNode c => (o, f, c) :: visits c
         | VList items =>
             (fix visits_items (l : list value) (idx : nat)
                : list (N * string * node) :=
                match l with
                | [] => []
                | VNode c :: l' =>
                    ((o, item_label f idx, c) :: visits c) ++ visits_items l' (S idx)
                | _ :: l' => visits_items l' (S idx)
                end) items 0
         | _ => []
         end ++ visits_fields fs'
     end) fs.

(** The name under which an identity is registered. *)
Definition nid_of (ids : gmap N string) (o : N) : string :=
  default EmptyString (ids !! o).

Definition edge_of (ids : gmap N string) (r : N * string * node) : stmt :=
  SEdge (nid_of ids r.1.1) (nid_of ids (oid r.2)) r.1.2.

(** One activation of [add_node] below the root, without its recursive
    calls: the parent is known by its identity. *)
Definition step (E I : gset N) (st : state) (r : N * string * node) : result state :=
  '(cid, st1) ← register E I r.2 st;
  Ok (add_edge (Some (nid_of (node_ids st) r.1.1)) (Some r.1.2) cid st1).

(** Entries of the identity map are never changed. *)
Definition ids_kept (st st' : state) : Prop :=
  ∀ o x, node_ids st !! o = Some x → node_ids st' !! o = Some x.

(** Every registered name is [node<k>] for a number below the counter, and
    no name is registered for two identities. *)
Definition ids_ok (st : state) : Prop :=
  (∀ o x, node_ids st !! o = Some x → ∃ k, k < node_counter st ∧ x = node_name k) ∧
  (∀ o1 o2 x, node_ids st !! o1 = Some x → node_ids st !! o2 = Some x → o1 = o2).

(** Every reference of the list starts at an identity of [S] or at a node
    that an earlier reference of the list leads to. *)
Fixpoint scoped (S : gset N) (l : list (N * string * node)) : Prop :=
  match l with
  | [] => True
  | r :: l' => r.1.1 ∈ S ∧ scoped (S ∪ {[ oid r.2 ]}) l'
  end.

(** The edges of a graph body, in the order of their statements. *)
Definition edges_of (d : list stmt) : list (string * string * string) :=
  omap (fun s => match s with SEdge t h l => Some (t, h, l) | _ => None end) d.

(** The node statements of a graph body, in order. *)
Definition decls_of (d : list stmt) : list (string * string * option string) :=
  omap (fun s => match s with SNode x l c => Some (x, l, c) | _ => None end) d.

Definition edge_triple (ids : gmap N string) (r : N * string * node)
  : string * string * string :=
  (nid_of ids r.1.1, nid_of ids (oid r.2), r.1.2).

(** A run of statements in which every node statement is directly followed
    by an edge that leads to the node. *)
Inductive paired : list stmt → Prop :=
| paired_nil : paired []
| paired_edge t h l d : paired d → paired (SEdge t h l :: d)
| paired_node x lbl c t l d : paired d → paired (SNode x lbl c :: SEdge t x l :: d).

(** No object occurs in the tree with two different contents. *)
Definition consistent (tree : node) : Prop :=
  ∀ m1 m2, m1 ∈ subtree tree → m2 ∈ subtree tree → oid m1 = oid m2 → m1 = m2.

(** The node statements and the identity map agree: every statement
    declares the name of a node of [U] with that node's label, every
    registered name is declared, and no name is declared twice. *)
Definition decls_ok (E I : gset N) (U : node → Prop) (st : state) : Prop :=
  (∀ x lbl fill, (x, lbl, fill) ∈ decls_of (dot st) →
     ∃ m, U m ∧ node_ids st !! oid m = Some x ∧ node_label E I m = Ok (lbl, fill)) ∧
  (∀ o x, node_ids st !! o = Some x → ∃ lbl fill, (x, lbl, fill) ∈ decls_of (dot st)) ∧
  NoDup (decls_of (dot st)).*1.*1.

(** The three callee shapes that lines 93-100 resolve to a dotted name. *)
Definition resolved_callee (func : value) (dotted : string) : Prop :=
  (isinstance func "Name" = true ∧ getattr func "id" = Ok (VStr dotted))
  ∨ (∃ v a b,
       isinstance func "Attribute" = true ∧ getattr func "value" = Ok v ∧
       isinstance v "Name" = true ∧ getattr v "id" = Ok (VStr a) ∧
       getattr func "attr" = Ok (VStr b) ∧ dotted = a +:+ "." +:+ b)
  ∨ (∃ v vv a b d,
       isinstance func "Attribute" = true ∧ getattr func "value" = Ok v ∧
       isinstance v "Attribute" = true ∧ getattr v "value" = Ok vv ∧
       isinstance vv "Name" = true ∧ getattr vv "id" = Ok (VStr a) ∧
       getattr v "attr" = Ok (VStr b) ∧ getattr func "attr" = Ok (VStr d) ∧
       dotted = a +:+ "." +:+ b +:+ "." +:+ d).

(** An attribute access whose chain is longer than three names or does not
    start at a name; [last] is its own attribute. *)
Definition unresolved_attribute (func : value) (last : string) : Prop :=
  isinstance func "Attribute" = true ∧
  getattr func "attr" = Ok (VStr last) ∧
  ∃ v, getattr func "value" = Ok v ∧ isinstance v "Name" = false ∧
       (isinstance v "Attribute" = false
        ∨ ∃ vv, getattr v "value" = Ok vv ∧ isinstance vv "Name" = false).

(** A callee that is neither a name nor an attribute access. *)
Definition other_callee (func : value) : Prop :=
  isinstance func "Name" = false ∧ isinstance func "Attribute" = false.

(** A function definition with the given name and number of parameters. *)
Definition function_def_of (name : string) (k : nat) (d : node) : Prop :=
  cls d = "FunctionDef" ∧
  getattr (VNode d) "name" = Ok (VStr name) ∧
  ∃ a params, getattr (VNode d) "args" = Ok a ∧
              getattr a "args" = Ok (VList params) ∧ length params = k.

(** The edge that lines 170-174 add for a node named [nid]. *)
Definition incoming_edge (parent_id field_name : option string) (nid : string)
  : list (string * string * string) :=
  match parent_id with
  | Some p =>
      if String.eqb p EmptyString then []
      else [(p, nid, default EmptyString field_name)]
  | None => []
  end.

(** The calls to [yaml.load] of a tree in pre-order, each with the name of
    the innermost [FunctionDef] around it; [cur] is the name in force at
    the node. *)
Fixpoint calls_in (cur : value) (n : node) : list (node * value) :=
  let 'Node _ c fs := n in
  let below (cur : value) :=
    (fix calls_fields (fs : list (string * value)) : list (node * value) :=
       match fs with
       | [] => []
       | (_, v) :: fs' =>
           match v with
           | VNode e => calls_in cur e
           | VList items =>
               (fix calls_items (l : list value) : list (node * value) :=
                  match l with
                  | [] => []
                  | VNode e :: l' => calls_in cur e ++ calls_items l'
                  | _ :: l' => calls_items l'
                  end) items
           | _ => []
           end ++ calls_fields fs'
       end) fs in
  if String.eqb c "FunctionDef" then
    match assoc "name" fs with
    | Some name => below name
    | None => []
    end
  else if String.eqb c "Call" then
    match is_yaml_load n with
    | Ok true => [(n, cur)]
    | _ => []
    end ++ below cur
  else below cur.

(** [s] begins with [p]. *)
Definition starts_with (p s : string) : Prop := ∃ t, s = p +:+ t.

(** The node kinds for which lines 73-159 make a label of their own. *)
Definition labelled_kinds : list string :=
  [ "FunctionDef"; "ClassDef"; "Import"; "ImportFrom"; "Assign"; "Return"; "Call";
    "Attribute"; "Name"; "Constant"; "arg"; "For"; "If"; "While"; "Try";
    "ExceptHandler"; "List"; "Tuple"; "Dict"; "Set"; "ListComp"; "GeneratorExp";
    "comprehension"; "With"; "withitem" ].

(** The names declared by the node statements of a graph body, in order. *)
Definition decl_names (d : list stmt) : list string := (decls_of d).*1.*1.

(** The nodes are numbered in the order of their statements, and the
    counter is the number of registered identities. *)
Definition numbered (st : state) : Prop :=
  decl_names (dot st) = node_name <$> seq 0 (node_counter st) ∧
  size (dom (node_ids st)) = node_counter st.

(** The graph only grows: statements are appended, registered names are
    kept, and the counter does not go down. *)
Definition grows (st st' : state) : Prop :=
  (∃ tail, dot st' = dot st ++ tail) ∧
  ids_kept st st' ∧
  node_counter st ≤ node_counter st'.

(** ** Sample trees *)

Module Sample.

(** The context objects are shared by all names of a parsed module. *)
Definition load : node := Node 100 "Load" [].
Definition store : node := Node 101 "Store" [].

Definition name (o : N) (i : string) (ctx : node) : node :=
  Node o "Name" [("id", VStr i); ("ctx", VNode ctx)].

Definition attribute (o : N) (v : node) (a : string) : node :=
  Node o "Attribute" [("value", VNode v); ("attr", VStr a); ("ctx", VNode load)].

Definition call (o : N) (func : node) (args : list value) : node :=
  Node o "Call" [("func", VNode func); ("args", VList args); ("keywords", VList [])].

Definition constant (o : N) (v : value) : node :=
  Node o "Constant" [("value", v); ("kind", VNone)].

Definition expr (o : N) (v : node) : node := Node o "Expr" [("value", VNode v)].

Definition arguments (o : N) (args : list value) : node :=
  Node o "arguments"
    [("posonlyargs", VList []); ("args", VList args); ("vararg", VNone);
     ("kwonlyargs", VList []); ("kw_defaults", VList []); ("kwarg", VNone);
     ("defaults", VList [])].

Definition function_def (o : N) (nm : string) (args : node) (body : list value) : node :=
  Node o "FunctionDef"
    [("name", VStr nm); ("args", VNode args); ("body", VList body);
     ("decorator_list", VList []); ("returns", VNone); ("type_comment", VNone)].

Definition module (o : N) (body : list value) : node :=
  Node o "Module" [("body", VList body); ("type_ignores", VList [])].

(** [def _external_load(): yaml.load(1)] and [def f(): yaml.load(request.data); yaml.load(p); g(p)] *)
Definition server : node :=
  module 1
    [ VNode (function_def 2 "_external_load" (arguments 3 [])
               [VNode (expr 4 (call 5 (attribute 6 (name 7 "yaml" load) "load")
                                    [VNode (constant 8 (VInt 1))]))]);
      VNode (function_def 10 "f" (arguments 11 [])
               [VNode (expr 12 (call 13 (attribute 14 (name 15 "yaml" load) "load")
                                     [VNode (attribute 16 (name 17 "request" load) "data")]));
                VNode (expr 18 (call 19 (attribute 20 (name 21 "yaml" load) "load")
                                     [VNode (name 22 "p" load)]));
                VNode (expr 23 (call 24 (name 25 "g" load) [VNode (name 26 "p" load)]))]) ].

(** The second call of [server]: [yaml.load(request.data)] inside [f]. *)
Definition tainted_call : node :=
  call 13 (attribute 14 (name 15 "yaml" load) "load")
       [VNode (attribute 16 (name 17 "request" load) "data")].

(** [g(p)] *)
Definition plain_call : node := call 8 (name 9 "g" load) [VNode (name 10 "p" load)].

(** [yaml.load(p); g(p)] at module level *)
Definition small : node :=
  module 1
    [ VNode (expr 2 (call 3 (attribute 4 (name 5 "yaml" load) "load")
                          [VNode (name 6 "p" load)]));
      VNode (expr 7 plain_call) ].

(** [x = 1] *)
Definition assignment : node :=
  module 1
    [ VNode (Node 2 "Assign"
               [("targets", VList [VNode (name 3 "x" store)]);
                ("value", VNode (constant 4 (VInt 1)));
                ("type_comment", VNone)]) ].

(** [x; y]: the two names share the [Load] object. *)
Definition two_names : node :=
  module 1 [VNode (expr 2 (name 3 "x" load)); VNode (expr 4 (name 5 "y" load))].

(** A tree in which one [Name] object is referenced by two statements. *)
Definition shared_name : node :=
  let x := name 3 "x" load in
  module 1 [VNode (expr 2 x); VNode (expr 4 x)].

(** [a.b.c.d()] *)
Definition deep_call : node :=
  call 1 (attribute 2 (attribute 3 (attribute 4 (name 5 "a" load) "b") "c") "d") [].

(** [def f(a): pass] twice *)
Definition twins : node :=
  module 1
    [ VNode (function_def 2 "f" (arguments 3 [VNode (Node 4 "arg" [("arg", VStr "a")])])
               [VNode (Node 5 "Pass" [])]);
      VNode (function_def 6 "f" (arguments 7 [VNode (Node 8 "arg" [("arg", VStr "a")])])
               [VNode (Node 9 "Pass" [])]) ].

(** [- - - - x]: five levels of expression under the module and statement. *)
Definition nested : node :=
  let neg (o : N) (e : node) :=
    Node o "UnaryOp" [("op", VNode (Node 102 "USub" [])); ("operand", VNode e)] in
  module 1 [VNode (expr 2 (neg 3%N (neg 4%N (neg 5%N (neg 6%N (name 7 "x" load))))))].

(** [def _external_load():] with a nested [def helper(): yaml.load(p)] and
    a class whose body calls [yaml.load(q)] *)
Definition scopes : node :=
  module 1
    [ VNode (function_def 2 "_external_load" (arguments 3 [])
               [ VNode (function_def 4 "helper" (arguments 5 [])
                          [VNode (expr 6 (call 7 (attribute 8 (name 9 "yaml" load) "load")
                                               [VNode (name 10 "p" load)]))]);
                 VNode (Node 11 "ClassDef"
                          [("name", VStr "C"); ("bases", VList []); ("keywords", VList []);
                           ("body",
                            VList [VNode (expr 12 (call 13 (attribute 14 (name 15 "yaml" load)
                                                              "load")
                                                     [VNode (name 16 "q" load)]))]);
                           ("decorator_list", VList [])]) ]) ].

Definition async_function_def (o : N) (nm : string) (args : node) (body : list value)
  : node :=
  Node o "AsyncFunctionDef"
    [("name", VStr nm); ("args", VNode args); ("body", VList body);
     ("decorator_list", VList []); ("returns", VNone); ("type_comment", VNone)].




(** [async def handler(a): pass] twice *)
Definition async_twins : node :=
  module 1
    [ VNode (async_function_def 2 "handler"
               (arguments 3 [VNode (Node 4 "arg" [("arg", VStr "a")])])
               [VNode (Node 5 "Pass" [])]);
      VNode (async_function_def 6 "handler"
               (arguments 7 [VNode (Node 8 "arg" [("arg", VStr "a")])])
               [VNode (Node 9 "Pass" [])]) ].

(** [x] under [k] minus signs; the objects are numbered from [o] on, and
    the operator object is shared, as in a parsed tree. *)
Fixpoint negations (k : nat) (o : N) : node :=
  match k with
  | 0 => name o "x" load
  | S k' =>
      Node o "UnaryOp"
        [("op", VNode (Node 102 "USub" [])); ("operand", VNode (negations k' (o + 1)))]
  end.

(** The module of the one statement [- - ... - x] with [k] minus signs. *)
Definition deeply_nested (k : nat) : node :=
  module 1 [VNode (expr 2 (negations k 1000))].

(** A string constant of 29 characters with a newline in it. *)
Definition long_text : string :=
  "first line" +:+ String newline "and a second line.".

Definition eleven_newlines : string :=
  String newline (String newline (String newline (String newline (String newline
  (String newline (String newline (String newline (String newline (String newline
  (String newline EmptyString)))))))))).

End Sample.

(** ** One level of each traversal *)

Arguments getattr : simpl never.
Arguments isinstance : simpl never.

Lemma foldM_app {A S} (f : S → A → result S) l1 l2 s :
  foldM f (l1 ++ l2) s = (s' ← foldM f l1 s; foldM f l2 s').
Proof.
  revert s; induction l1 as [|x l1 IH]; intros s; simpl; [done|].
  destruct (f s x); simpl; auto.
Qed.

Lemma item_refs_nodes field idx items :
  (item_refs field idx items).*2 = list_nodes items.
Proof.
  revert idx; induction items as [|[] l IH]; intros idx; simpl; auto.
  by rewrite IH.
Qed.

Lemma child_refs_nodes n : (child_refs n).*2 = iter_child_nodes n.
Proof.
  unfold child_refs, iter_child_nodes.
  induction (fields n) as [|[f v] fs IH]; simpl; [done|].
  rewrite fmap_app, IH. f_equal.
  unfold field_refs; simpl. destruct v; simpl; auto using item_refs_nodes.
Qed.

Lemma subtree_unfold n : subtree n = n :: flat_map subtree (iter_child_nodes n).
Proof.
  destruct n as [o c fs]. unfold iter_child_nodes. simpl. f_equal.
  induction fs as [|[f v] fs IH]; simpl; [done|].
  rewrite flat_map_app, <- IH. f_equal.
  destruct v; simpl; auto using app_nil_r.
  induction items as [|[] l IHl]; simpl; auto.
  by rewrite IHl.
Qed.

Lemma max_list_with_app {A} (f : A → nat) l1 l2 :
  max_list_with f (l1 ++ l2) = max_list_with f l1 `max` max_list_with f l2.
Proof. induction l1 as [|x l1 IH]; simpl; [done|]. rewrite IH. lia. Qed.

Lemma max_list_with_elem_of {A} (f : A → nat) x l :
  x ∈ l → f x ≤ max_list_with f l.
Proof. induction 1; simpl; lia. Qed.

Lemma depth_unfold n : depth n = S (max_list_with depth (iter_child_nodes n)).
Proof.
  destruct n as [o c fs]. unfold iter_child_nodes. simpl. f_equal.
  induction fs as [|[f v] fs IH]; simpl; [done|].
  rewrite max_list_with_app, <- IH. f_equal.
  destruct v; simpl; auto with lia.
  induction items as [|[] l IHl]; simpl; auto.
Qed.

Lemma depth_child n c : c ∈ iter_child_nodes n → depth c < depth n.
Proof.
  intros Hc. rewrite (depth_unfold n).
  pose proof (max_list_with_elem_of depth c _ Hc). lia.
Qed.

(** Induction on a tree through the children of each node. *)
Lemma node_children_ind (P : node → Prop) :
  (∀ n, (∀ c, c ∈ iter_child_nodes n → P c) → P n) → ∀ n, P n.
Proof.
  intros H n. remember (depth n) as d eqn:Hd.
  revert n Hd. induction d as [d IH] using lt_wf_ind. intros n ->.
  apply H. intros c Hc. eapply IH; [|reflexivity]. by apply depth_child.
Qed.

Lemma visit_unfold n s :
  visit n s =
    if String.eqb (cls n) "FunctionDef" then
      name ← getattr (VNode n) "name";
      s1 ← visit_children n (mkFinder name (yaml_load_calls s));
      Ok (mkFinder (current_func s) (yaml_load_calls s1))
    else if String.eqb (cls n) "ClassDef" then
      visit_children n s
    else if String.eqb (cls n) "Call" then
      hit ← is_yaml_load n;
      visit_children n
        (if hit : bool
         then mkFinder (current_func s) (yaml_load_calls s ++ [(n, current_func s)])
         else s)
    else if String.eqb (cls n) "Constant" then
      _ ← getattr (VNode n) "value";
      visit_children n s
    else visit_children n s.
Proof.
  destruct n as [o c fs].
  assert (Hgv : ∀ s,
    (fix visit_fields (fs : list (string * value)) (s : finder) : result finder :=
       match fs with
       | [] => Ok s
       | (_, v) :: fs' =>
           s1 ← match v with
                | VList items =>
                    (fix visit_items (l : list value) (s : finder) : result finder :=
                       match l with
                       | [] => Ok s
                       | VNode e :: l' => s1 ← visit e s; visit_items l' s1
                       | _ :: l' => visit_items l' s
                       end) items s
                | VNode e => visit e s
                | _ => Ok s
                end;
           visit_fields fs' s1
       end) fs s = visit_children (Node o c fs) s).
  { unfold visit_children, iter_child_nodes. simpl fields.
    induction fs as [|[f v] fs IH]; intros s0; simpl; [done|].
    rewrite foldM_app. destruct v; simpl; try apply IH.
    - destruct (visit n s0); simpl; auto.
    - match goal with |- (?a ≫= _) = (?b ≫= _) => assert (a = b) as -> end.
      { clear IH. revert s0. induction items as [|[] l IHl]; intros s1; simpl; auto.
        destruct (visit n s1); simpl; auto. }
      destruct (foldM _ (list_nodes items) s0); simpl; auto. }
  cbn [visit cls].
  destruct (String.eqb c "FunctionDef").
  { destruct (getattr (VNode (Node o c fs)) "name"); simpl; [|done].
    by rewrite Hgv. }
  destruct (String.eqb c "ClassDef"); [apply Hgv|].
  destruct (String.eqb c "Call").
  { destruct (is_yaml_load (Node o c fs)); simpl; [apply Hgv|done]. }
  destruct (String.eqb c "Constant"); [|apply Hgv].
  destruct (getattr (VNode (Node o c fs)) "value"); simpl; [apply Hgv|done].
Qed.

Section WalkUnfold.

Variables E I : gset N.

Lemma add_node_unfold n parent_id field_name st :
  add_node E I n parent_id field_name st =
    '(nid, st1) ← register E I n st;
    add_children E I nid n (add_edge parent_id field_name nid st1).
Proof.
  destruct n as [o c fs].
  unfold add_children, child_refs. cbn [add_node fields].
  destruct (register E I (Node o c fs) st) as [[nid st1]|e]; simpl; [|done].
  generalize (add_edge parent_id field_name nid st1). clear st st1.
  induction fs as [|[f v] fs IH]; intros st; simpl; [done|].
  rewrite foldM_app.
  destruct v; unfold field_refs at 1; simpl; try apply IH.
  - destruct (add_node E I n (Some nid) (Some f) st); simpl; [apply IH|reflexivity].
  - change (field_refs (f, VList items)) with (item_refs f 0 items).
    match goal with |- (?a ≫= _) = (?b ≫= _) => assert (a = b) as -> end.
    { clear IH. generalize 0. revert st.
      induction items as [|[] l IHl]; intros st k; simpl; try apply IHl; [done|].
      destruct (add_node E I n (Some nid) (Some (item_label f k)) st); simpl;
        [apply IHl|reflexivity]. }
    destruct (foldM _ (item_refs f 0 items) st); simpl; [apply IH|reflexivity].
Qed.

End WalkUnfold.

Arguments subtree : simpl never.
Arguments depth : simpl never.
Arguments visit : simpl never.
Arguments add_node : simpl never.

(** ** Strings: escaping and truncation *)

Lemma length_str_take k s : String.length (str_take k s) = k `min` String.length s.
Proof.
  revert s; induction k as [|k IH]; intros [|c s]; simpl; auto.
Qed.

Lemma length_string_app (s1 s2 : string) :
  String.length (s1 +:+ s2) = String.length s1 + String.length s2.
Proof. induction s1 as [|c s1 IH]; simpl; auto. Qed.

Lemma length_escape_newlines s : String.length s ≤ String.length (escape_newlines s).
Proof.
  induction s as [|c s IH]; simpl; [done|].
  destruct (Ascii.eqb c newline); simpl; lia.
Qed.

(** Escaping replaces each newline by a backslash and an [n], and nothing else. *)
Lemma escape_newlines_spec s :
  String.list_ascii_of_string (escape_newlines s) =
    flat_map (fun c => if Ascii.eqb c newline then [backslash; "n"%char] else [c])
             (String.list_ascii_of_string s).
Proof.
  induction s as [|c s IH]; simpl; [done|].
  destruct (Ascii.eqb c newline); simpl; by rewrite IH.
Qed.

Lemma escape_newlines_clean s : newline ∉ String.list_ascii_of_string (escape_newlines s).
Proof.
  induction s as [|c s IH]; simpl; [apply not_elem_of_nil|].
  destruct (Ascii.eqb c newline) eqn:Hc; simpl.
  - rewrite !not_elem_of_cons. repeat split; [discriminate..|done].
  - rewrite not_elem_of_cons. split; [|done].
    intros Heq. subst c. by rewrite Ascii.eqb_refl in Hc.
Qed.

Lemma str_take_clean c k s :
  c ∉ String.list_ascii_of_string s → c ∉ String.list_ascii_of_string (str_take k s).
Proof.
  revert s; induction k as [|k IH]; intros [|a s]; simpl; try (intros _; apply not_elem_of_nil).
  rewrite !not_elem_of_cons. intros [? ?]. split; auto.
Qed.

Lemma list_ascii_of_string_app (s1 s2 : string) :
  String.list_ascii_of_string (s1 +:+ s2) = String.list_ascii_of_string s1 ++ String.list_ascii_of_string s2.
Proof. induction s1 as [|c s1 IH]; simpl; [done|]. by rewrite IH. Qed.

Lemma const_payload_long s :
  20 < String.length (escape_newlines s) →
  const_payload s = str_take 17 (escape_newlines s) +:+ "...".
Proof.
  intros H. unfold const_payload.
  destruct (Nat.ltb_spec 20 (String.length (escape_newlines s))); [done|lia].
Qed.

Lemma truncated_length s :
  20 < String.length (escape_newlines s) →
  String.length (str_take 17 (escape_newlines s) +:+ "...") = 20.
Proof.
  intros H. rewrite length_string_app, length_str_take.
  change (String.length "...") with 3. lia.
Qed.

Lemma constant_label E I n s :
  cls n = "Constant" → getattr (VNode n) "value" = Ok (VStr s) →
  node_label E I n = Ok ("Constant: " +:+ dquote +:+ const_payload s +:+ dquote, None).
Proof.
  intros Hc Hv. unfold node_label. rewrite Hc. cbn -[getattr const_payload].
  rewrite Hv. reflexivity.
Qed.

(** ** The visitor and the classification loop *)

Lemma bind_ok {A B} (m : result A) (f : A → result B) b :
  m ≫= f = Ok b → ∃ a, m = Ok a ∧ f a = Ok b.
Proof. destruct m as [a|e]; simpl; [eauto|done]. Qed.

(** A relation that every round of a loop respects holds across the loop. *)
Lemma foldM_rel {A S} (f : S → A → result S) (R : S → S → Prop) l :
  (∀ s, R s s) → (∀ s1 s2 s3, R s1 s2 → R s2 s3 → R s1 s3) →
  (∀ x s s', x ∈ l → f s x = Ok s' → R s s') →
  ∀ s s', foldM f l s = Ok s' → R s s'.
Proof.
  intros Hrefl Htrans. induction l as [|x l IH]; intros Hf s s'; simpl.
  - intros [= ->]. apply Hrefl.
  - intros (s1 & H1 & H2)%bind_ok. eapply Htrans.
    + eapply Hf; [left|done].
    + eapply IH; [|done]. intros y t t' Hy. apply Hf. by right.
Qed.

Lemma subtree_self n : n ∈ subtree n.
Proof. rewrite subtree_unfold. left. Qed.

Lemma subtree_child n c m : c ∈ iter_child_nodes n → m ∈ subtree c → m ∈ subtree n.
Proof.
  intros Hc Hm. rewrite (subtree_unfold n). right.
  apply list_elem_of_In, in_flat_map. exists c. by rewrite <- !list_elem_of_In.
Qed.

Lemma subtree_inv n m :
  m ∈ subtree n → m = n ∨ ∃ c, c ∈ iter_child_nodes n ∧ m ∈ subtree c.
Proof.
  rewrite (subtree_unfold n). intros [ ->|Hm]%elem_of_cons; [by left|right].
  apply list_elem_of_In, in_flat_map in Hm as (c & Hc & Hm).
  exists c. by rewrite !list_elem_of_In.
Qed.


Lemma visited_refl n s : visited n s s.
Proof.
  split; [done|]. exists []. split; [by rewrite app_nil_r|].
  intros e He. by apply elem_of_nil in He.
Qed.

Lemma visited_trans n s1 s2 s3 : visited n s1 s2 → visited n s2 s3 → visited n s1 s3.
Proof.
  intros [Hc1 (new1 & Hn1 & Hg1)] [Hc2 (new2 & Hn2 & Hg2)].
  split; [congruence|]. exists (new1 ++ new2).
  split; [by rewrite Hn2, Hn1, app_assoc|].
  intros e [?|?]%elem_of_app; auto.
Qed.

Lemma visited_child n c s s' : c ∈ iter_child_nodes n → visited c s s' → visited n s s'.
Proof.
  intros Hc [Hcur (new & Hn & Hg)]. split; [done|]. exists new. split; [done|].
  intros e He. destruct (Hg e He) as (? & ? & ?). eauto using subtree_child.
Qed.

Lemma visit_visited n : ∀ s s', visit n s = Ok s' → visited n s s'.
Proof.
  induction n as [n IH] using node_children_ind. intros s s'.
  assert (Hch : ∀ t t', visit_children n t = Ok t' → visited n t t').
  { intros t t'. unfold visit_children.
    apply (foldM_rel (fun s c => visit c s) (visited n));
      eauto using visited_refl, visited_trans, visited_child. }
  rewrite visit_unfold.
  destruct (String.eqb (cls n) "FunctionDef") eqn:Hfd.
  { intros (name & _ & (s1 & H1 & [= <-])%bind_ok)%bind_ok.
    apply Hch in H1 as [_ (new & Hn & Hg)]. split; [done|]. by exists new. }
  destruct (String.eqb (cls n) "ClassDef"); [by apply Hch|].
  destruct (String.eqb (cls n) "Call") eqn:Hcall.
  { intros ([] & Hy & H1)%bind_ok; [|by apply Hch].
    apply Hch in H1 as [Hcur (new & Hn & Hg)]. simpl in *.
    split; [done|]. exists ((n, current_func s) :: new).
    split; [by rewrite Hn, <- app_assoc|].
    intros e [ ->|He]%elem_of_cons; [|by auto]. simpl.
    split; [apply subtree_self|]. split; [by apply String.eqb_eq|done]. }
  destruct (String.eqb (cls n) "Constant"); [|by apply Hch].
  intros (v & _ & H1)%bind_ok. by apply Hch.
Qed.





Lemma eq_str_true v s : eq_str v s = true ↔ v = VStr s.
Proof.
  destruct v; simpl; try (split; [discriminate|congruence]).
  rewrite String.eqb_eq. split; congruence.
Qed.





(** The two sets after the loop: the identities of the entries that passed,
    respectively failed, the test. *)
Lemma classify_calls_spec calls : ∀ E0 I0 E I,
  classify_calls (E0, I0) calls = Ok (E, I) →
  (∀ o, o ∈ E ↔ o ∈ E0 ∨ ∃ e, e ∈ calls ∧ oid e.1 = o ∧ is_external e.1 e.2 = Ok true) ∧
  (∀ o, o ∈ I ↔ o ∈ I0 ∨ ∃ e, e ∈ calls ∧ oid e.1 = o ∧ is_external e.1 e.2 = Ok false) ∧
  (∀ e, e ∈ calls → ∃ b, is_external e.1 e.2 = Ok b).
Proof.
  unfold classify_calls.
  induction calls as [|e calls IH]; intros E0 I0 E I; simpl.
  - intros [= <- <-]. repeat split; try (by left);
      try (intros [?|(? & []%elem_of_nil & _)]; done).
    intros ? []%elem_of_nil.
  - intros ([E1 I1] & H1 & H2)%bind_ok.
    apply IH in H2 as (HE & HI & Hall).
    unfold classify_call in H1. apply bind_ok in H1 as (b & Hb & H1). simpl in H1.
    assert (Hsets : (E1, I1) = if b then (E0 ∪ {[oid e.1]}, I0) else (E0, I0 ∪ {[oid e.1]})).
    { by destruct b; injection H1 as <- <-. }
    clear H1. split; [|split].
    + intros o. rewrite HE. destruct b; injection Hsets as -> ->.
      * rewrite elem_of_union, elem_of_singleton. split.
        -- intros [[?| ->]|(x & ? & ?)]; [by left|right; exists e|right; exists x];
             split; try done; by constructor.
        -- intros [?|(x & [ ->|?]%elem_of_cons & <- & ?)]; eauto.
      * split.
        -- intros [?|(x & ? & ?)]; [by left|right; exists x]. split; [by right|done].
        -- intros [?|(x & [ ->|?]%elem_of_cons & <- & ?)]; eauto. congruence.
    + intros o. rewrite HI. destruct b; injection Hsets as -> ->.
      * split.
        -- intros [?|(x & ? & ?)]; [by left|right; exists x]. split; [by right|done].
        -- intros [?|(x & [ ->|?]%elem_of_cons & <- & ?)]; eauto. congruence.
      * rewrite elem_of_union, elem_of_singleton. split.
        -- intros [[?| ->]|(x & ? & ?)]; [by left|right; exists e|right; exists x];
             split; try done; by constructor.
        -- intros [?|(x & [ ->|?]%elem_of_cons & <- & ?)]; eauto.
    + intros x [ ->|?]%elem_of_cons; eauto.
Qed.

Lemma NoDup_fmap_eq {A B} (g : A → B) (l : list A) x y :
  NoDup (g <$> l) → x ∈ l → y ∈ l → g x = g y → x = y.
Proof.
  induction l as [|a l IH]; simpl; [by intros _ []%elem_of_nil|].
  intros [Ha Hl]%NoDup_cons [ ->|Hx]%elem_of_cons [ ->|Hy]%elem_of_cons Hg; auto.
  - destruct Ha. rewrite Hg. by apply list_elem_of_fmap_2.
  - destruct Ha. rewrite <- Hg. by apply list_elem_of_fmap_2.
Qed.

Lemma calls_in_unfold cur n :
  calls_in cur n =
    if String.eqb (cls n) "FunctionDef" then
      match getattr (VNode n) "name" with
      | Ok name => flat_map (calls_in name) (iter_child_nodes n)
      | Raise _ => []
      end
    else if String.eqb (cls n) "Call" then
      match is_yaml_load n with
      | Ok true => [(n, cur)]
      | _ => []
      end ++ flat_map (calls_in cur) (iter_child_nodes n)
    else flat_map (calls_in cur) (iter_child_nodes n).
Proof.
  destruct n as [o c fs].
  assert (Hbelow : ∀ cur,
    (fix calls_fields (fs : list (string * value)) : list (node * value) :=
       match fs with
       | [] => []
       | (_, v) :: fs' =>
           match v with
           | VNode e => calls_in cur e
           | VList items =>
               (fix calls_items (l : list value) : list (node * value) :=
                  match l with
                  | [] => []
                  | VNode e :: l' => calls_in cur e ++ calls_items l'
                  | _ :: l' => calls_items l'
                  end) items
           | _ => []
           end ++ calls_fields fs'
       end) fs = flat_map (calls_in cur) (iter_child_nodes (Node o c fs))).
  { intros cur'. unfold iter_child_nodes. simpl fields.
    induction fs as [|[f v] fs IH]; simpl; [done|].
    rewrite flat_map_app, <- IH. f_equal.
    destruct v as [e|items| | | | |]; simpl; auto using app_nil_r.
    induction items as [|[] l IHl]; simpl; auto. by rewrite IHl. }
  cbn [calls_in cls]. unfold getattr. cbn [fields].
  destruct (String.eqb c "FunctionDef").
  { destruct (assoc "name" fs); [apply Hbelow|done]. }
  destruct (String.eqb c "Call"); [|apply Hbelow].
  by rewrite Hbelow.
Qed.

Arguments calls_in : simpl never.

(** What a visit records, as a function of the tree. *)
Lemma visit_appends n : ∀ s s',
  visit n s = Ok s' →
  current_func s' = current_func s ∧
  yaml_load_calls s' = yaml_load_calls s ++ calls_in (current_func s) n.
Proof.
  induction n as [n IH] using node_children_ind. intros s s'.
  assert (Hch : ∀ t t', visit_children n t = Ok t' →
            current_func t' = current_func t ∧
            yaml_load_calls t' =
              yaml_load_calls t ++ flat_map (calls_in (current_func t)) (iter_child_nodes n)).
  { unfold visit_children.
    induction (iter_child_nodes n) as [|c l IHl]; intros t t'; simpl.
    - intros [= <-]. by rewrite app_nil_r.
    - intros (t1 & H1 & H2)%bind_ok.
      apply IH in H1 as [Hc1 Hl1]; [|left].
      apply IHl in H2 as [Hc2 Hl2].
      + split; [congruence|]. by rewrite Hl2, Hl1, Hc1, app_assoc.
      + intros c' Hc'. apply IH. by right. }
  rewrite visit_unfold, calls_in_unfold.
  destruct (String.eqb (cls n) "FunctionDef").
  { intros (name & -> & (s1 & H1 & [= <-])%bind_ok)%bind_ok.
    apply Hch in H1 as [_ Hl]. simpl in *. done. }
  destruct (String.eqb (cls n) "ClassDef") eqn:Hcd.
  { apply String.eqb_eq in Hcd. rewrite Hcd. simpl. by apply Hch. }
  destruct (String.eqb (cls n) "Call").
  { intros (hit & -> & H1)%bind_ok. apply Hch in H1 as [Hc Hl].
    destruct hit; simpl in *; [|done].
    split; [done|]. by rewrite Hl, <- app_assoc. }
  destruct (String.eqb (cls n) "Constant"); [|by apply Hch].
  intros (v & _ & H1)%bind_ok. by apply Hch.
Qed.


(** ** The walk as a loop over the references of the tree *)

Lemma visits_unfold n :
  visits n = flat_map (fun lc => (oid n, lc.1, lc.2) :: visits lc.2) (child_refs n).
Proof.
  destruct n as [o c fs]. unfold child_refs. cbn [visits fields oid].
  induction fs as [|[f v] fs IH]; simpl; [done|].
  rewrite flat_map_app, <- IH. f_equal.
  destruct v as [d|items| | | | |]; unfold field_refs; simpl; auto.
  - by rewrite app_nil_r.
  - generalize 0. induction items as [|[] l IHl]; intros k; simpl; auto.
    by rewrite IHl.
Qed.

Arguments visits : simpl never.

Section Linear.

Variables E I : gset N.

Lemma register_some n st nid :
  node_ids st !! oid n = Some nid → register E I n st = Ok (nid, st).
Proof. unfold register. by intros ->. Qed.

Lemma register_lookup n st nid st1 :
  register E I n st = Ok (nid, st1) → node_ids st1 !! oid n = Some nid.
Proof.
  unfold register. destruct (node_ids st !! oid n) eqn:Hl.
  - by intros [= <- <-].
  - intros ([label early] & _ & [= <- <-])%bind_ok. simpl. apply lookup_insert_eq.
Qed.

Lemma register_mono n st nid st1 o x :
  register E I n st = Ok (nid, st1) →
  node_ids st !! o = Some x → node_ids st1 !! o = Some x.
Proof.
  unfold register. destruct (node_ids st !! oid n) eqn:Hl.
  - by intros [= <- <-].
  - intros ([label early] & _ & [= <- <-])%bind_ok Ho. simpl.
    rewrite lookup_insert_ne; [done|]. congruence.
Qed.

Lemma add_edge_ids p f nid st : node_ids (add_edge p f nid st) = node_ids st.
Proof. unfold add_edge. destruct p as [p|]; [destruct (String.eqb p _)|]; done. Qed.

Lemma add_edge_counter p f nid st : node_counter (add_edge p f nid st) = node_counter st.
Proof. unfold add_edge. destruct p as [p|]; [destruct (String.eqb p _)|]; done. Qed.



Lemma step_kept st r st' : step E I st r = Ok st' → ids_kept st st'.
Proof.
  unfold step. intros ([cid st1] & Hr & Hst)%bind_ok o x Ho.
  injection Hst as <-. change (node_ids (add_edge (Some (nid_of (node_ids st) r.1.1))
    (Some r.1.2) cid st1) !! o = Some x).
  rewrite add_edge_ids. eauto using register_mono.
Qed.

Lemma steps_kept l st st' : foldM (step E I) l st = Ok st' → ids_kept st st'.
Proof.
  apply (foldM_rel (step E I) ids_kept).
  - by intros s o x.
  - intros s1 s2 s3 H1 H2 o x Ho. by apply H2, H1.
  - intros r s s' _. apply step_kept.
Qed.

Lemma add_node_linear n : ∀ parent_id field_name st,
  add_node E I n parent_id field_name st =
    '(nid, st1) ← register E I n st;
    foldM (step E I) (visits n) (add_edge parent_id field_name nid st1).
Proof.
  induction n as [n IH] using node_children_ind. intros pid fld st.
  rewrite add_node_unfold.
  destruct (register E I n st) as [[nid st1]|e] eqn:Hreg; simpl; [|done].
  assert (Hnid : node_ids (add_edge pid fld nid st1) !! oid n = Some nid).
  { rewrite add_edge_ids. eauto using register_lookup. }
  revert Hnid. generalize (add_edge pid fld nid st1). clear Hreg st st1.
  unfold add_children. rewrite visits_unfold.
  assert (Hsub : ∀ lc, lc ∈ child_refs n → lc.2 ∈ iter_child_nodes n).
  { intros lc Hlc. rewrite <- child_refs_nodes. by apply list_elem_of_fmap_2. }
  revert Hsub. induction (child_refs n) as [|[lbl c] l IHl]; intros Hsub st Hnid;
    cbn [foldM flat_map fst snd]; [done|].
  rewrite foldM_app. cbn [foldM].
  rewrite (IH c (Hsub (lbl, c) ltac:(left))).
  destruct (register E I c st) as [[cid st1]|e] eqn:Hreg.
  - assert (step E I st (oid n, lbl, c) = Ok (add_edge (Some nid) (Some lbl) cid st1)) as ->.
    { unfold step, nid_of. cbn [fst snd]. by rewrite Hreg, Hnid. }
    cbn [mbind result_bind].
    destruct (foldM (step E I) (visits c) (add_edge (Some nid) (Some lbl) cid st1))
      as [st2|e] eqn:Hc; [|done].
    apply IHl.
    + intros lc Hlc. apply Hsub. by right.
    + apply steps_kept in Hc. apply Hc. rewrite add_edge_ids.
      eauto using register_mono.
  - assert (step E I st (oid n, lbl, c) = Raise e) as ->; [|done].
    unfold step. cbn [fst snd]. by rewrite Hreg.
Qed.

End Linear.

(** ** Invariants of the walk *)

Lemma node_name_inj j k : node_name j = node_name k → j = k.
Proof. unfold node_name. simpl. intros [= H]. by apply pretty_nat_inj in H. Qed.

Lemma node_name_nonempty k : String.eqb (node_name k) EmptyString = false.
Proof. reflexivity. Qed.

Lemma subtree_visits n : subtree n = n :: (visits n).*2.
Proof.
  induction n as [n IH] using node_children_ind.
  rewrite subtree_unfold, visits_unfold, <- child_refs_nodes. f_equal.
  assert (Hsub : ∀ lc, lc ∈ child_refs n → lc.2 ∈ iter_child_nodes n).
  { intros lc Hlc. rewrite <- child_refs_nodes. by apply list_elem_of_fmap_2. }
  revert Hsub. induction (child_refs n) as [|[lbl c] l IHl]; intros Hsub; [done|].
  rewrite fmap_cons. cbn [flat_map snd]. rewrite fmap_app, fmap_cons. cbn [snd].
  rewrite <- IHl by (intros lc Hlc; apply Hsub; by right).
  rewrite (IH c (Hsub (lbl, c) ltac:(left))). done.
Qed.

Lemma scoped_mono S S' l : S ⊆ S' → scoped S l → scoped S' l.
Proof.
  revert S S'. induction l as [|r l IH]; intros S S' HS; simpl; [done|].
  intros [? Hl]. split; [set_solver|]. eapply IH; [|done]. set_solver.
Qed.

Lemma scoped_app S l1 l2 : scoped S l1 → scoped S l2 → scoped S (l1 ++ l2).
Proof.
  revert S. induction l1 as [|r l1 IH]; intros S; simpl; [done|].
  intros [? H1] H2. split; [done|]. apply IH; [done|].
  eapply scoped_mono; [|done]. set_solver.
Qed.

Lemma scoped_visits n : ∀ S, oid n ∈ S → scoped S (visits n).
Proof.
  induction n as [n IH] using node_children_ind. intros S Hn.
  rewrite visits_unfold.
  assert (Hsub : ∀ lc, lc ∈ child_refs n → lc.2 ∈ iter_child_nodes n).
  { intros lc Hlc. rewrite <- child_refs_nodes. by apply list_elem_of_fmap_2. }
  revert Hsub. induction (child_refs n) as [|[lbl c] l IHl]; intros Hsub; simpl; [done|].
  split; [done|]. apply scoped_app.
  - apply (IH c (Hsub (lbl, c) ltac:(left))). set_solver.
  - eapply scoped_mono; [|apply IHl; intros lc Hlc; apply Hsub; by right]. set_solver.
Qed.

Lemma scoped_closed S l :
  (∀ r, r ∈ l → oid r.2 ∈ S) → scoped S l → ∀ r, r ∈ l → r.1.1 ∈ S.
Proof.
  induction l as [|a l IH]; simpl; [by intros _ _ r []%elem_of_nil|].
  intros Hin [Ha Hl] r [->|Hr]%elem_of_cons; [done|].
  apply IH; [| |done].
  - intros r' Hr'. apply Hin. by right.
  - eapply scoped_mono; [|done]. specialize (Hin a ltac:(left)). set_solver.
Qed.

Lemma edges_of_app d1 d2 : edges_of (d1 ++ d2) = edges_of d1 ++ edges_of d2.
Proof. apply omap_app. Qed.

Lemma decls_of_app d1 d2 : decls_of (d1 ++ d2) = decls_of d1 ++ decls_of d2.
Proof. apply omap_app. Qed.

Lemma paired_app d1 d2 : paired d1 → paired d2 → paired (d1 ++ d2).
Proof. induction 1; simpl; auto using paired. Qed.

Lemma paired_followed d x lbl c :
  paired d → SNode x lbl c ∈ d →
  ∃ pre t l post, d = pre ++ SNode x lbl c :: SEdge t x l :: post.
Proof.
  induction 1 as [|t h l d Hd IH|y lbl' c' t l d Hd IH].
  - by intros []%elem_of_nil.
  - intros [[=]|Hin]%elem_of_cons.
    destruct (IH Hin) as (pre & t' & l' & post & ->).
    by exists (SEdge t h l :: pre), t', l', post.
  - intros [[= -> -> ->]|[[=]|Hin]%elem_of_cons]%elem_of_cons.
    + by exists [], t, l, d.
    + destruct (IH Hin) as (pre & t' & l' & post & ->).
      by exists (SNode y lbl' c' :: SEdge t y l :: pre), t', l', post.
Qed.

(** The references of a list field, by index. *)
Lemma item_refs_index field items : ∀ k,
  item_refs field k items =
    omap (fun ie => match ie.2 with
                    | VNode c => Some (item_label field ie.1, c)
                    | _ => None
                    end)
         (imap (fun i e => (k + i, e)) items).
Proof.
  induction items as [|e items IH]; intros k; [done|].
  rewrite imap_cons. simpl. rewrite Nat.add_0_r.
  assert (imap ((fun i e => (k + i, e)) ∘ S) items = imap (fun i e => (S k + i, e)) items) as ->.
  { apply imap_ext. intros i x _. simpl. f_equal. lia. }
  destruct e; simpl; by rewrite IH.
Qed.

Section Steps.

Variables E I : gset N.

(** The call branch declares the node itself exactly when the final
    declaration is skipped: every registration issues one statement. *)
Lemma label_early n lbl early :
  node_label E I n = Ok (lbl, early) →
  marked E I n = match early with Some _ => true | None => false end.
Proof.
  assert (Hplain : ∀ r : result string,
    (l ← r; Ok (l, @None string)) = Ok (lbl, early) → early = None).
  { intros r (l & _ & [= _ <-])%bind_ok. done. }
  unfold marked. destruct (String.eqb (cls n) "Call") eqn:Hcall.
  - apply String.eqb_eq in Hcall. unfold node_label. rewrite Hcall. cbn -[call_label].
    intros (label & _ & H)%bind_ok. revert H.
    destruct (bool_decide (oid n ∈ E)); [by intros [= _ <-]|].
    destruct (bool_decide (oid n ∈ I)); by intros [= _ <-].
  - unfold node_label. rewrite Hcall. clear Hcall. simpl.
    repeat (destruct (String.eqb (cls n) _);
            [first [by intros ->%Hplain | by intros [= _ <-]]|]).
    by intros [= _ <-].
Qed.

Lemma register_new n st nid st1 :
  node_ids st !! oid n = None → register E I n st = Ok (nid, st1) →
  ∃ lbl fill, node_label E I n = Ok (lbl, fill) ∧ nid = node_name (node_counter st) ∧
    st1 = mkState (S (node_counter st)) (<[oid n := nid]> (node_ids st))
                  (dot st ++ [SNode nid lbl fill]).
Proof.
  unfold register. intros ->. intros ([lbl fill] & Hl & H)%bind_ok.
  exists lbl, fill. split; [done|]. rewrite (label_early _ _ _ Hl) in H.
  by destruct fill; injection H as <- <-.
Qed.

Lemma register_ids_ok n st nid st1 :
  register E I n st = Ok (nid, st1) → ids_ok st → ids_ok st1.
Proof.
  destruct (node_ids st !! oid n) as [x|] eqn:Hl.
  { rewrite (register_some _ _ _ _ _ Hl). by intros [= <- <-]. }
  intros (lbl & fill & _ & -> & ->)%register_new [Hname Hinj]; [|done].
  split; simpl.
  - intros o x [[<- <-]|[_ Ho]]%lookup_insert_Some.
    + exists (node_counter st). split; [lia|done].
    + destruct (Hname o x Ho) as (k & ? & ->). exists k. split; [lia|done].
  - intros o1 o2 x [[<- <-]|[? H1]]%lookup_insert_Some
                   [[<- Hx]|[? H2]]%lookup_insert_Some; try done.
    + destruct (Hname o2 _ H2) as (k & ? & ?%node_name_inj). lia.
    + subst x. destruct (Hname o1 _ H1) as (k & ? & ?%node_name_inj). lia.
    + eauto.
Qed.

Lemma add_edge_ids_ok p f nid st : ids_ok st → ids_ok (add_edge p f nid st).
Proof. unfold ids_ok. by rewrite add_edge_ids, add_edge_counter. Qed.

Lemma step_unfold st r st' :
  step E I st r = Ok st' →
  ∃ cid st1, register E I r.2 st = Ok (cid, st1) ∧
             st' = add_edge (Some (nid_of (node_ids st) r.1.1)) (Some r.1.2) cid st1.
Proof.
  unfold step. intros ([cid st1] & Hr & [= <-])%bind_ok. by exists cid, st1.
Qed.

Lemma step_ids_ok st r st' : step E I st r = Ok st' → ids_ok st → ids_ok st'.
Proof.
  intros (cid & st1 & Hr & ->)%step_unfold Hok.
  eauto using add_edge_ids_ok, register_ids_ok.
Qed.

Lemma steps_ids_ok l : ∀ st st', foldM (step E I) l st = Ok st' → ids_ok st → ids_ok st'.
Proof.
  induction l as [|r l IH]; intros st st'; simpl; [by intros [= <-]|].
  intros (st1 & H1 & H2)%bind_ok Hok. eauto using step_ids_ok.
Qed.

Lemma register_dom n st nid st1 :
  register E I n st = Ok (nid, st1) →
  dom (node_ids st1) = dom (node_ids st) ∪ {[ oid n ]}.
Proof.
  destruct (node_ids st !! oid n) as [x|] eqn:Hl.
  - rewrite (register_some _ _ _ _ _ Hl). intros [= <- <-].
    apply (elem_of_dom_2 (D := gset N)) in Hl. set_solver.
  - intros (lbl & fill & _ & -> & ->)%register_new; [|done]. simpl.
    rewrite dom_insert_L. set_solver.
Qed.

Lemma step_dom st r st' :
  step E I st r = Ok st' → dom (node_ids st') = dom (node_ids st) ∪ {[ oid r.2 ]}.
Proof.
  intros (cid & st1 & Hr & ->)%step_unfold. rewrite add_edge_ids.
  eauto using register_dom.
Qed.

Lemma steps_dom l : ∀ st st',
  foldM (step E I) l st = Ok st' →
  dom (node_ids st') = dom (node_ids st) ∪ list_to_set (oid <$> l.*2).
Proof.
  induction l as [|r l IH]; intros st st'; simpl.
  - intros [= <-]. set_solver.
  - intros (st1 & H1 & H2)%bind_ok.
    rewrite (IH _ _ H2), (step_dom _ _ _ H1). set_solver.
Qed.

(** A parent that is registered under a well-formed name gets its edge. *)
Lemma step_edge st r st' :
  step E I st r = Ok st' → ids_ok st → r.1.1 ∈ dom (node_ids st) →
  ∃ cid st1, register E I r.2 st = Ok (cid, st1) ∧
    st' = mkState (node_counter st1) (node_ids st1)
            (dot st1 ++ [SEdge (nid_of (node_ids st) r.1.1) cid r.1.2]).
Proof.
  intros (cid & st1 & Hr & ->)%step_unfold [Hname _] [x Hx]%elem_of_dom.
  exists cid, st1. split; [done|].
  unfold add_edge, nid_of. rewrite Hx. simpl.
  destruct (Hname _ _ Hx) as (k & _ & ->). by rewrite node_name_nonempty.
Qed.

Lemma register_edges n st nid st1 :
  register E I n st = Ok (nid, st1) → edges_of (dot st1) = edges_of (dot st).
Proof.
  destruct (node_ids st !! oid n) as [x|] eqn:Hl.
  - rewrite (register_some _ _ _ _ _ Hl). by intros [= <- <-].
  - intros (lbl & fill & _ & -> & ->)%register_new; [|done]. simpl.
    rewrite edges_of_app. simpl. by rewrite app_nil_r.
Qed.

Lemma nid_of_kept st st' o :
  ids_kept st st' → o ∈ dom (node_ids st) →
  nid_of (node_ids st') o = nid_of (node_ids st) o.
Proof.
  intros Hk [x Hx]%elem_of_dom. unfold nid_of. by rewrite Hx, (Hk _ _ Hx).
Qed.

(** The edges of a run of steps: one for each reference, in order. *)
Lemma steps_edges l : ∀ st st',
  foldM (step E I) l st = Ok st' → ids_ok st → scoped (dom (node_ids st)) l →
  edges_of (dot st') = edges_of (dot st) ++ (edge_triple (node_ids st') <$> l).
Proof.
  induction l as [|r l IH]; intros st st'; simpl.
  - intros [= <-] _ _. by rewrite app_nil_r.
  - intros (s1 & H1 & H2)%bind_ok Hok [Hp Hl].
    pose proof (steps_kept _ _ _ _ _ H2) as Hk2.
    pose proof (step_kept _ _ _ _ _ H1) as Hk1.
    pose proof (step_dom _ _ _ H1) as Hd.
    rewrite (IH _ _ H2); [|by eauto using step_ids_ok|by rewrite Hd].
    destruct (step_edge _ _ _ H1 Hok Hp) as (cid & st1 & Hr & ->). simpl in *.
    rewrite edges_of_app, (register_edges _ _ _ _ Hr). simpl.
    rewrite <- app_assoc. simpl. do 2 f_equal. unfold edge_triple. f_equal. f_equal.
    + symmetry. unfold nid_of at 1.
      assert (node_ids st !! r.1.1 = Some (nid_of (node_ids st) r.1.1)) as Hx.
      { apply elem_of_dom in Hp as [x Hx]. unfold nid_of. by rewrite Hx. }
      by rewrite (Hk2 _ _ (Hk1 _ _ Hx)).
    + unfold nid_of. by rewrite (Hk2 _ _ (register_lookup _ _ _ _ _ _ Hr)).
Qed.

End Steps.

Section Steps2.

Variables E I : gset N.

Lemma state_eta st : st = mkState (node_counter st) (node_ids st) (dot st).
Proof. by destruct st. Qed.

Lemma steps_paired l : ∀ st st',
  foldM (step E I) l st = Ok st' → ids_ok st → scoped (dom (node_ids st)) l →
  ∃ tail, dot st' = dot st ++ tail ∧ paired tail.
Proof.
  induction l as [|r l IH]; intros st st'; simpl.
  - intros [= <-] _ _. exists []. split; [by rewrite app_nil_r|constructor].
  - intros (s1 & H1 & H2)%bind_ok Hok [Hp Hl].
    destruct (IH _ _ H2) as (tail & Ht & Hpair);
      [by eauto using step_ids_ok|by rewrite (step_dom _ _ _ _ _ H1)|].
    destruct (step_edge _ _ _ _ _ H1 Hok Hp) as (cid & st1 & Hr & ->). simpl in *.
    destruct (node_ids st !! oid r.2) as [x|] eqn:Hl'.
    + rewrite (register_some _ _ _ _ _ Hl') in Hr. injection Hr as <- <-.
      exists (SEdge (nid_of (node_ids st) r.1.1) x r.1.2 :: tail).
      split; [by rewrite Ht, <- app_assoc|by constructor].
    + apply register_new in Hr as (lbl & fill & _ & -> & ->); [|done]. simpl in *.
      exists (SNode (node_name (node_counter st)) lbl fill
              :: SEdge (nid_of (node_ids st) r.1.1) (node_name (node_counter st)) r.1.2
              :: tail).
      split; [by rewrite Ht, <- !app_assoc|by constructor].
Qed.

(** Steps over references to registered nodes only add their edges. *)
Lemma steps_revisit l : ∀ st,
  ids_ok st →
  (∀ r, r ∈ l → r.1.1 ∈ dom (node_ids st) ∧ oid r.2 ∈ dom (node_ids st)) →
  foldM (step E I) l st =
    Ok (mkState (node_counter st) (node_ids st) (dot st ++ (edge_of (node_ids st) <$> l))).
Proof.
  induction l as [|r l IH]; intros st Hok Hin; simpl.
  - by rewrite app_nil_r, <- state_eta.
  - destruct (Hin r ltac:(left)) as [[p Hp]%elem_of_dom [x Hx]%elem_of_dom].
    assert (step E I st r =
      Ok (mkState (node_counter st) (node_ids st) (dot st ++ [edge_of (node_ids st) r]))) as ->.
    { unfold step. rewrite (register_some _ _ _ _ _ Hx). simpl.
      unfold add_edge, edge_of, nid_of. rewrite Hp, Hx. simpl.
      destruct Hok as [Hname _]. destruct (Hname _ _ Hp) as (k & _ & ->).
      by rewrite node_name_nonempty. }
    simpl. rewrite IH; simpl.
    + by rewrite <- app_assoc.
    + done.
    + intros r' Hr'. apply Hin. by right.
Qed.

(** The walk fails only where a label cannot be made. *)
Lemma steps_total l : ∀ st,
  (∀ r, r ∈ l → is_ok (node_label E I r.2) = true) →
  ∃ st', foldM (step E I) l st = Ok st'.
Proof.
  induction l as [|r l IH]; intros st Hl; simpl; [by eauto|].
  assert (∃ s1, step E I st r = Ok s1) as [s1 ->].
  { unfold step, register. destruct (node_ids st !! oid r.2); simpl; [by eauto|].
    specialize (Hl r ltac:(left)).
    destruct (node_label E I r.2) as [[lbl fill]|]; [simpl; by eauto|done]. }
  simpl. apply IH. intros r' Hr'. apply Hl. by right.
Qed.

Section Decls.

Variable U : node → Prop.

Lemma register_decls_ok n st nid st1 :
  register E I n st = Ok (nid, st1) → U n → ids_ok st →
  decls_ok E I U st → decls_ok E I U st1.
Proof.
  destruct (node_ids st !! oid n) as [x|] eqn:Hl.
  { rewrite (register_some _ _ _ _ _ Hl). by intros [= <- <-]. }
  intros (lbl & fill & Hlbl & -> & ->)%register_new Hn [Hname Hinj] (Hd & Hr & Hnd);
    [|done].
  unfold decls_ok. simpl. rewrite decls_of_app. simpl.
  assert (Hfresh : ∀ l c, (node_name (node_counter st), l, c) ∉ decls_of (dot st)).
  { intros l c (m & _ & Hm & _)%Hd. destruct (Hname _ _ Hm) as (k & ? & ?%node_name_inj). lia. }
  split; [|split].
  - intros x l c [Hin|[= -> -> ->]%list_elem_of_singleton]%elem_of_app.
    + destruct (Hd _ _ _ Hin) as (m & ? & Hm & ?). exists m.
      split; [done|]. split; [|done]. rewrite lookup_insert_ne; [done|]. congruence.
    + exists n. split; [done|]. split; [apply lookup_insert_eq|done].
  - intros o x [[<- <-]|[_ Ho]]%lookup_insert_Some.
    + exists lbl, fill. apply elem_of_app. right. by left.
    + destruct (Hr _ _ Ho) as (l & c & ?). exists l, c. apply elem_of_app. by left.
  - rewrite !fmap_app. simpl. apply NoDup_app. split; [done|]. split; [|apply NoDup_singleton].
    intros x Hx ->%list_elem_of_singleton.
    apply list_elem_of_fmap in Hx as ([y c] & Hy1 & Hy).
    apply list_elem_of_fmap in Hy as ([[x' l] c'] & Hy2 & Hy). simpl in *.
    injection Hy2 as -> ->. subst x'. by apply Hfresh in Hy.
Qed.

Lemma add_edge_decls_ok p f nid st :
  decls_ok E I U st → decls_ok E I U (add_edge p f nid st).
Proof.
  unfold decls_ok. rewrite add_edge_ids.
  assert (decls_of (dot (add_edge p f nid st)) = decls_of (dot st)) as ->; [|done].
  unfold add_edge. destruct p as [p|]; [|done]. destruct (String.eqb p _); [done|].
  simpl. rewrite decls_of_app. simpl. by rewrite app_nil_r.
Qed.

Lemma steps_decls_ok l : ∀ st st',
  foldM (step E I) l st = Ok st' → (∀ r, r ∈ l → U r.2) → ids_ok st →
  decls_ok E I U st → decls_ok E I U st'.
Proof.
  induction l as [|r l IH]; intros st st'; simpl; [by intros [= <-]|].
  intros (s1 & H1 & H2)%bind_ok HU Hok Hd.
  eapply IH; [done| |by eauto using step_ids_ok|].
  - intros r' Hr'. apply HU. by right.
  - apply step_unfold in H1 as (cid & st1 & Hr & ->).
    apply add_edge_decls_ok. eapply register_decls_ok; eauto. apply HU. left.
Qed.

End Decls.

End Steps2.

(** Consistency of a given tree, by comparing its nodes pairwise. *)
Ltac consistent_by_cases :=
  let m1 := fresh in let m2 := fresh in
  let H1 := fresh in let H2 := fresh in let Ho := fresh in
  intros m1 m2 H1 H2 Ho;
  apply list_elem_of_In in H1; apply list_elem_of_In in H2;
  vm_compute in H1;
  repeat (destruct H1 as [<-|H1]; [
    vm_compute in H2;
    repeat (destruct H2 as [<-|H2]; [first [reflexivity | discriminate Ho]|]);
    destruct H2 |]);
  destruct H1.

Lemma small_consistent : consistent Sample.small.
Proof. consistent_by_cases. Qed.

Lemma deep_call_consistent : consistent Sample.deep_call.
Proof. consistent_by_cases. Qed.

Lemma twins_consistent : consistent Sample.twins.
Proof. consistent_by_cases. Qed.

(** [NoDup] of a given list of numbers. *)
Ltac nodup_by_cases :=
  vm_compute;
  repeat (apply NoDup_cons_2;
          [let H := fresh in
           intros H%list_elem_of_In; simpl in H; intuition discriminate|]);
  apply NoDup_nil_2.

(** ** The walk under the recursion limit *)

Lemma foldM_ext_in {A S} (f g : S → A → result S) l :
  (∀ x s, x ∈ l → f s x = g s x) → ∀ s, foldM f l s = foldM g l s.
Proof.
  induction l as [|x l IH]; intros Hfg s; simpl; [done|].
  rewrite (Hfg x s) by left.
  destruct (g s x) as [s1|e]; simpl; [|done].
  apply IH. intros y t Hy. apply Hfg. by right.
Qed.

(** A loop with a round that always raises does not complete. *)
Lemma foldM_stops {A S} (f : S → A → result S) l x :
  x ∈ l → (∀ s, ∃ e, f s x = Raise e) → ∀ s, ∃ e, foldM f l s = Raise e.
Proof.
  intros Hx Hf. induction l as [|y l IH]; intros s; simpl.
  { by apply elem_of_nil in Hx. }
  apply elem_of_cons in Hx as [<-|Hx].
  - destruct (Hf s) as [e ->]. by exists e.
  - destruct (f s y) as [s1|e]; simpl; [by apply IH|by exists e].
Qed.

(** A loop whose rounds complete or raise [e], one of them raising it
    always, raises [e]. *)
Lemma foldM_raises {A S} (f : S → A → result S) l x e :
  x ∈ l → (∀ s, f s x = Raise e) →
  (∀ y s, y ∈ l → (∃ s', f s y = Ok s') ∨ f s y = Raise e) →
  ∀ s, foldM f l s = Raise e.
Proof.
  intros Hx Hf. induction l as [|y l IH]; intros Hall s; simpl.
  { by apply elem_of_nil in Hx. }
  apply elem_of_cons in Hx as [<-|Hx]; [by rewrite Hf|].
  destruct (Hall y s ltac:(left)) as [[s1 ->]| ->]; simpl; [|done].
  apply IH; [done|]. intros z t Hz. apply Hall. by right.
Qed.

Lemma foldM_raise {A S} (f : S → A → result S) l : ∀ s e,
  foldM f l s = Raise e → ∃ x s1, x ∈ l ∧ f s1 x = Raise e.
Proof.
  induction l as [|x l IH]; intros s e; simpl; [done|].
  destruct (f s x) as [s1|e1] eqn:H1; simpl.
  - intros (y & t & Hy & Ht)%IH. exists y, t. split; [by right|done].
  - intros [= ->]. exists x, s. split; [left|done].
Qed.

Lemma max_list_with_lt {A} (f : A → nat) l k :
  k < max_list_with f l → ∃ x, x ∈ l ∧ k < f x.
Proof.
  induction l as [|x l IH]; simpl; [lia|]. intros Hk.
  destruct (decide (k < f x)) as [Hx|Hx].
  - exists x. split; [left|done].
  - destruct IH as (y & Hy & Hky); [lia|]. exists y. split; [by right|done].
Qed.

Lemma child_refs_child n lc : lc ∈ child_refs n → lc.2 ∈ iter_child_nodes n.
Proof. intros Hlc. rewrite <- child_refs_nodes. by apply list_elem_of_fmap_2. Qed.

(** A node nested more deeply than [k] has a child nested more deeply
    than [k - 1]. *)
Lemma deep_child n k :
  S k < depth n → ∃ lc, lc ∈ child_refs n ∧ k < depth lc.2.
Proof.
  rewrite depth_unfold, <- child_refs_nodes. intros Hk.
  destruct (max_list_with_lt depth (child_refs n).*2 k) as (c & Hc & Hkc); [lia|].
  apply list_elem_of_fmap in Hc as (lc & -> & Hlc). by exists lc.
Qed.

Section Limit.

Variables E I : gset N.

(** Registering a node fails only when its label cannot be made. *)
Lemma register_raise n st e : register E I n st = Raise e → node_label E I n = Raise e.
Proof.
  unfold register. destruct (node_ids st !! oid n); [done|].
  destruct (node_label E I n) as [[lbl fill]|e1]; [done|]. by intros [= ->].
Qed.

Lemma register_total n st :
  is_ok (node_label E I n) = true → ∃ nid st1, register E I n st = Ok (nid, st1).
Proof.
  intros Hl. unfold register. destruct (node_ids st !! oid n); [by eauto|].
  destruct (node_label E I n) as [[lbl fill]|]; [simpl; by eauto|done].
Qed.

(** With room for the depth of the tree the limit is not felt. *)
Lemma add_node_within_enough frames : ∀ n parent_id field_name st,
  depth n ≤ frames →
  add_node_within E I frames n parent_id field_name st =
    add_node E I n parent_id field_name st.
Proof.
  induction frames as [|room IH]; intros n pid fld st Hd.
  { rewrite depth_unfold in Hd. lia. }
  rewrite add_node_unfold. cbn [add_node_within].
  destruct (register E I n st) as [[nid st1]|e]; simpl; [|done].
  unfold add_children. apply foldM_ext_in. intros lc s Hlc.
  apply IH. apply child_refs_child, depth_child in Hlc. lia.
Qed.

(** Without the limit the walk completes when every label can be made. *)
Lemma add_node_total n parent_id field_name st :
  (∀ m, m ∈ subtree n → is_ok (node_label E I m) = true) →
  ∃ st', add_node E I n parent_id field_name st = Ok st'.
Proof.
  intros Hl. rewrite add_node_linear.
  destruct (register_total n st (Hl n (subtree_self n))) as (nid & st1 & ->).
  simpl. apply steps_total. intros r Hr. apply Hl.
  rewrite subtree_visits. right. by apply list_elem_of_fmap_2.
Qed.

(** A tree nested more deeply than there is room for is not walked to
    the end. *)
Lemma add_node_within_short frames : ∀ n parent_id field_name st,
  frames < depth n →
  ∃ e, add_node_within E I frames n parent_id field_name st = Raise e.
Proof.
  induction frames as [|room IH]; intros n pid fld st Hd; [by eexists|].
  cbn [add_node_within].
  destruct (register E I n st) as [[nid st1]|e]; simpl; [|by eexists].
  destruct (deep_child n room Hd) as (lc & Hlc & Hdeep).
  eapply foldM_stops; [exact Hlc|]. intros s. by apply IH.
Qed.

(** When every label can be made, what stops the walk of such a tree is
    the interpreter's exception. *)
Lemma add_node_within_overflow frames : ∀ n parent_id field_name st,
  frames < depth n →
  (∀ m, m ∈ subtree n → is_ok (node_label E I m) = true) →
  add_node_within E I frames n parent_id field_name st = Raise RecursionError.
Proof.
  induction frames as [|room IH]; intros n pid fld st Hd Hl; [done|].
  cbn [add_node_within].
  destruct (register_total n st (Hl n (subtree_self n))) as (nid & st1 & ->).
  simpl.
  assert (Hsub : ∀ lc m, lc ∈ child_refs n → m ∈ subtree lc.2 →
                 is_ok (node_label E I m) = true).
  { intros lc m Hlc Hm. apply Hl. eapply subtree_child; [|done].
    by apply child_refs_child. }
  destruct (deep_child n room Hd) as (lc & Hlc & Hdeep).
  eapply foldM_raises; [exact Hlc| |].
  - intros s. apply IH; [done|]. intros m. by apply Hsub.
  - intros lc' s Hlc'. destruct (decide (room < depth lc'.2)) as [Hroom|Hroom].
    + right. apply IH; [done|]. intros m. by apply Hsub.
    + left. rewrite add_node_within_enough by lia.
      apply add_node_total. intros m. by apply Hsub.
Qed.

(** What stops a walk is the interpreter's exception or the exception of
    a label. *)
Lemma add_node_within_raise frames : ∀ n parent_id field_name st e,
  add_node_within E I frames n parent_id field_name st = Raise e →
  e = RecursionError ∨ ∃ m, m ∈ subtree n ∧ node_label E I m = Raise e.
Proof.
  induction frames as [|room IH]; intros n pid fld st e; [intros [= <-]; by left|].
  cbn [add_node_within].
  destruct (register E I n st) as [[nid st1]|e1] eqn:Hreg; simpl.
  - intros (lc & s & Hlc & Hc)%foldM_raise.
    destruct (IH _ _ _ _ _ Hc) as [ ->|(m & Hm & Hlbl)]; [by left|right].
    exists m. split; [|done]. eapply subtree_child; [|done]. by apply child_refs_child.
  - intros [= ->]. right. exists n. split; [apply subtree_self|by eapply register_raise].
Qed.

End Limit.

(** ** The finished graph *)

Lemma elem_of_decls_of d x lbl c : (x, lbl, c) ∈ decls_of d ↔ SNode x lbl c ∈ d.
Proof.
  unfold decls_of. rewrite list_elem_of_omap. split.
  - intros ([] & Hin & [=]). by subst.
  - intros Hin. by exists (SNode x lbl c).
Qed.

Lemma length_filter_fmap {A B} (f : A → B) (P : B → Prop) (Q : A → Prop)
    `{∀ b, Decision (P b)} `{∀ a, Decision (Q a)} (l : list A) :
  (∀ a, a ∈ l → P (f a) ↔ Q a) →
  length (filter P (f <$> l)) = length (filter Q l).
Proof.
  induction l as [|a l IH]; intros HPQ; [done|].
  rewrite fmap_cons, !filter_cons.
  specialize (IH (fun b Hb => HPQ b (list_elem_of_further _ _ _ Hb))).
  pose proof (HPQ a ltac:(left)) as Ha.
  destruct (decide (P (f a))), (decide (Q a)); simpl; try tauto; by rewrite IH.
Qed.

Lemma initial_ids_ok : ids_ok initial_state.
Proof. split; simpl; intros *; by rewrite lookup_empty. Qed.

Lemma initial_decls_ok E I U : decls_ok E I U initial_state.
Proof.
  split; [|split]; simpl.
  - by intros ??? []%elem_of_nil.
  - intros *. by rewrite lookup_empty.
  - constructor.
Qed.

Section Graph.

Variables E I : gset N.

(** What the walk of a whole tree leaves in the graph. *)
Lemma build_graph_spec tree st :
  build_graph E I tree = Ok st →
  ids_ok st ∧
  decls_ok E I (fun m => m ∈ subtree tree) st ∧
  node_ids st !! oid tree = Some (node_name 0) ∧
  dom (node_ids st) = list_to_set (oid <$> subtree tree) ∧
  edges_of (dot st) = edge_triple (node_ids st) <$> visits tree ∧
  ∃ lbl fill tail,
    dot st = dot initial_state ++ SNode (node_name 0) lbl fill :: tail ∧ paired tail.
Proof.
  unfold build_graph. rewrite add_node_linear.
  intros ([nid st1] & Hreg & Hsteps)%bind_ok. simpl in Hsteps.
  destruct (register_new E I tree initial_state nid st1) as (lbl & fill & Hlbl & -> & ->);
    [done..|].
  set (st1 := mkState _ _ _) in *.
  assert (Hok1 : ids_ok st1).
  { eapply register_ids_ok; [done|]. apply initial_ids_ok. }
  assert (Hd1 : decls_ok E I (fun m => m ∈ subtree tree) st1).
  { eapply register_decls_ok;
      [done|apply subtree_self|apply initial_ids_ok|apply initial_decls_ok]. }
  assert (Hsc : scoped (dom (node_ids st1)) (visits tree)).
  { apply scoped_visits. unfold st1. simpl. rewrite dom_insert_L. set_solver. }
  split; [by eauto using steps_ids_ok|]. split.
  { eapply steps_decls_ok; [done| |done|done].
    intros r Hr. rewrite subtree_visits. right. by apply list_elem_of_fmap_2. }
  split.
  { apply (steps_kept _ _ _ _ _ Hsteps). unfold st1. simpl. apply lookup_insert_eq. }
  split.
  { rewrite (steps_dom _ _ _ _ _ Hsteps), subtree_visits. unfold st1. simpl.
    rewrite dom_insert_L, dom_empty_L. set_solver. }
  split.
  { by rewrite (steps_edges _ _ _ _ _ Hsteps Hok1 Hsc). }
  destruct (steps_paired _ _ _ _ _ Hsteps Hok1 Hsc) as (tail & Ht & Hp).
  exists lbl, fill, tail. split; [|done]. rewrite Ht. unfold st1. simpl. done.
Qed.

End Graph.

(** A call that is in one of the two sets is a call to [yaml.load]. *)
Lemma classified_is_yaml_load tree E I c :
  classify tree = Ok (E, I) → consistent tree → c ∈ subtree tree →
  oid c ∈ E ∨ oid c ∈ I → cls c = "Call" ∧ is_yaml_load c = Ok true.
Proof.
  unfold classify, find_yaml_load.
  intros (calls & (s & Hv & [= <-])%bind_ok & Hc)%bind_ok Hcons Hin Hmem.
  apply visit_visited in Hv as [_ (new & Hn & Hg)]. simpl in Hn. subst new.
  apply classify_calls_spec in Hc as (HE & HI & _).
  assert (∃ e, e ∈ yaml_load_calls s ∧ oid e.1 = oid c) as (e & He & Ho).
  { destruct Hmem as [H|H]; [apply HE in H|apply HI in H];
      destruct H as [H|(e & ? & ? & _)]; try (by apply not_elem_of_empty in H); eauto. }
  destruct (Hg e He) as (Hw & Hcls & Hy).
  by rewrite <- (Hcons _ _ Hw Hin Ho).
Qed.

(** * Main properties *)

(** ** Labels of string constants *)

(** C4: a constant whose string value is longer than 20 characters gets a
    label whose quoted text is 20 characters long: the first 17 characters
    of the value with its newlines escaped, then three dots; no newline
    is left in it. *)
Theorem long_constant_payload E I n s :
  cls n = "Constant" →
  getattr (VNode n) "value" = Ok (VStr s) →
  20 < String.length s →
  ∃ payload,
    node_label E I n = Ok ("Constant: " +:+ dquote +:+ payload +:+ dquote, None) ∧
    payload = str_take 17 (escape_newlines s) +:+ "..." ∧
    String.length (str_take 17 (escape_newlines s)) = 17 ∧
    String.length payload = 20 ∧
    String.list_ascii_of_string (escape_newlines s) =
      flat_map (fun c => if Ascii.eqb c newline then [backslash; "n"%char] else [c])
               (String.list_ascii_of_string s) ∧
    newline ∉ String.list_ascii_of_string payload.
Proof.
  intros Hc Hv Hlen.
  pose proof (length_escape_newlines s) as Hesc.
  exists (str_take 17 (escape_newlines s) +:+ "...").
  split; [|split; [done|split; [|split; [|split]]]].
  - rewrite (constant_label E I n s Hc Hv), const_payload_long by lia. done.
  - rewrite length_str_take. lia.
  - apply truncated_length. lia.
  - apply escape_newlines_spec.
  - rewrite list_ascii_of_string_app, not_elem_of_app. split.
    + apply str_take_clean, escape_newlines_clean.
    + simpl. rewrite !not_elem_of_cons. repeat split; try discriminate.
      apply not_elem_of_nil.
Qed.

Lemma long_constant_payload_witness :
  ∃ payload,
    node_label ∅ ∅ (Sample.constant 1 (VStr Sample.long_text)) =
      Ok ("Constant: " +:+ dquote +:+ payload +:+ dquote, None) ∧
    payload = "first line\nand a..." ∧ String.length payload = 20.
Proof.
  destruct (long_constant_payload ∅ ∅ (Sample.constant 1 (VStr Sample.long_text))
              Sample.long_text) as (payload & Hl & -> & _ & Hlen & _).
  - reflexivity.
  - reflexivity.
  - vm_compute. lia.
  - eexists. split; [exact Hl|]. split; [reflexivity|exact Hlen].
Defined.

(** C10: the threshold of 20 is compared with the length of the escaped
    string: a value of at most 20 characters whose escaped form is longer
    than 20 is cut to the first 17 escaped characters and three dots. *)
Theorem threshold_on_escaped_form E I n s :
  cls n = "Constant" →
  getattr (VNode n) "value" = Ok (VStr s) →
  String.length s ≤ 20 →
  20 < String.length (escape_newlines s) →
  node_label E I n =
    Ok ("Constant: " +:+ dquote +:+ (str_take 17 (escape_newlines s) +:+ "...") +:+ dquote,
        None) ∧
  String.length (str_take 17 (escape_newlines s) +:+ "...") = 20.
Proof.
  intros Hc Hv _ Hlen. split.
  - by rewrite (constant_label E I n s Hc Hv), const_payload_long.
  - by apply truncated_length.
Qed.

Lemma threshold_on_escaped_form_witness :
  String.length Sample.eleven_newlines = 11 ∧
  node_label ∅ ∅ (Sample.constant 1 (VStr Sample.eleven_newlines)) =
    Ok ("Constant: " +:+ dquote +:+ "\n\n\n\n\n\n\n\n\..." +:+ dquote, None).
Proof.
  split; [reflexivity|].
  refine (proj1 (threshold_on_escaped_form ∅ ∅
                   (Sample.constant 1 (VStr Sample.eleven_newlines))
                   Sample.eleven_newlines _ _ _ _)).
  - reflexivity.
  - reflexivity.
  - vm_compute. lia.
  - vm_compute. lia.
Defined.

(** ** The classifier *)




(** The three forms of the label of a call, decided by the two sets. *)
Lemma call_node_label E I c lbl fill :
  cls c = "Call" → node_label E I c = Ok (lbl, fill) →
  ∃ base, call_label c = Ok base ∧
    (((lbl, fill) = (base +:+ " [external]", Some "lightcoral") ∧ oid c ∈ E)
     ∨ ((lbl, fill) = (base +:+ " [internal]", Some "lightblue") ∧ oid c ∈ I ∧ (oid c ∉ E))
     ∨ ((lbl, fill) = (base, None) ∧ (oid c ∉ E) ∧ (oid c ∉ I))).
Proof.
  intros Hc. unfold node_label. rewrite Hc. cbn -[call_label].
  intros (base & Hb & H)%bind_ok. exists base. split; [done|]. revert H.
  destruct (bool_decide_reflect (oid c ∈ E)); [intros [= <- <-]; by left|].
  destruct (bool_decide_reflect (oid c ∈ I)); intros [= <- <-]; right; [left|right]; done.
Qed.

Lemma call_label_form c base :
  call_label c = Ok base →
  ∃ f (k : nat), base = "Call: " +:+ f +:+ " (args=" +:+ pretty k +:+ ")".
Proof.
  unfold call_label.
  intros (fn & _ & (f & _ & (a & _ & (k & _ & [= <-])%bind_ok)%bind_ok)%bind_ok)%bind_ok.
  by exists f, k.
Qed.

(** C8: the graph has one statement for a call of the tree; its label and
    colour are of exactly one of three forms: marked external (the call is
    in the external set), marked internal (it is in the internal set and
    not in the external one), or unmarked (it is in neither set).  A call
    whose callee is not [yaml.load] is in neither set, and its statement
    is the unmarked one: the plain label and no colour. *)
Theorem call_tag_exclusive tree E I st c :
  classify tree = Ok (E, I) →
  build_graph E I tree = Ok st →
  consistent tree →
  c ∈ subtree tree → cls c = "Call" →
  ∃ nid base f (k : nat),
    node_ids st !! oid c = Some nid ∧
    call_label c = Ok base ∧
    base = "Call: " +:+ f +:+ " (args=" +:+ pretty k +:+ ")" ∧
    (∃ lbl fill, (nid, lbl, fill) ∈ decls_of (dot st)) ∧
    (∀ lbl fill, (nid, lbl, fill) ∈ decls_of (dot st) →
       ((lbl, fill) = (base +:+ " [external]", Some "lightcoral") ∧ oid c ∈ E)
       ∨ ((lbl, fill) = (base +:+ " [internal]", Some "lightblue") ∧ oid c ∈ I ∧ (oid c ∉ E))
       ∨ ((lbl, fill) = (base, None) ∧ (oid c ∉ E) ∧ (oid c ∉ I))) ∧
    (is_yaml_load c = Ok false →
       (oid c ∉ E) ∧ (oid c ∉ I) ∧
       ∀ lbl fill, (nid, lbl, fill) ∈ decls_of (dot st) → (lbl, fill) = (base, None)).
Proof.
  intros Hcl Hbuild Hcons Hin Hcls.
  destruct (build_graph_spec _ _ _ _ Hbuild) as ([_ Hinj] & (Hd & Hr & _) & _ & Hdom & _).
  assert (oid c ∈ dom (node_ids st)) as [nid Hnid]%elem_of_dom.
  { rewrite Hdom, elem_of_list_to_set. by apply list_elem_of_fmap_2. }
  assert (Hlabel : ∀ lbl fill, (nid, lbl, fill) ∈ decls_of (dot st) →
                   node_label E I c = Ok (lbl, fill)).
  { intros lbl fill (m & Hm & Hid & Hl)%Hd.
    by rewrite <- (Hcons _ _ Hm Hin (Hinj _ _ _ Hid Hnid)). }
  destruct (Hr _ _ Hnid) as (lbl0 & fill0 & Hs0).
  destruct (call_node_label _ _ _ _ _ Hcls (Hlabel _ _ Hs0)) as (base & Hbase & _).
  destruct (call_label_form _ _ Hbase) as (f & k & Hform).
  exists nid, base, f, k. split; [done|]. split; [done|]. split; [done|].
  split; [by eauto|].
  assert (Hforms : ∀ lbl fill, (nid, lbl, fill) ∈ decls_of (dot st) →
       ((lbl, fill) = (base +:+ " [external]", Some "lightcoral") ∧ oid c ∈ E)
       ∨ ((lbl, fill) = (base +:+ " [internal]", Some "lightblue") ∧ oid c ∈ I ∧ (oid c ∉ E))
       ∨ ((lbl, fill) = (base, None) ∧ (oid c ∉ E) ∧ (oid c ∉ I))).
  { intros lbl fill Hs.
    destruct (call_node_label _ _ _ _ _ Hcls (Hlabel _ _ Hs)) as (base' & Hb' & H).
    rewrite Hbase in Hb'. by injection Hb' as <-. }
  split; [done|].
  intros Hno.
  assert (Hout : (oid c ∉ E) ∧ (oid c ∉ I)).
  { split; intros Hmem;
      destruct (classified_is_yaml_load tree E I c) as [_ Hy]; auto; congruence. }
  split; [apply Hout|]. split; [apply Hout|].
  intros lbl fill Hs. destruct Hout as [HE HI].
  destruct (Hforms _ _ Hs) as [[_ ?]|[(_ & ? & _)|[? _]]]; done.
Qed.

Lemma call_tag_exclusive_witness :
  ∃ E I st nid,
    classify Sample.small = Ok (E, I) ∧
    build_graph E I Sample.small = Ok st ∧
    node_ids st !! 8%N = Some nid ∧
    (8%N ∉ E) ∧ (8%N ∉ I) ∧
    ∀ lbl fill, (nid, lbl, fill) ∈ decls_of (dot st) →
                (lbl, fill) = ("Call: g (args=1)", None).
Proof.
  pose (sets := match classify Sample.small with Ok s => s | Raise _ => (∅, ∅) end).
  pose (st := match build_graph sets.1 sets.2 Sample.small with
              | Ok s => s | Raise _ => initial_state end).
  assert (Hcl : classify Sample.small = Ok (sets.1, sets.2)) by (vm_compute; reflexivity).
  assert (Hst : build_graph sets.1 sets.2 Sample.small = Ok st) by (vm_compute; reflexivity).
  destruct (call_tag_exclusive Sample.small sets.1 sets.2 st Sample.plain_call Hcl Hst)
    as (nid & base & f & k & Hnid & Hbase & _ & _ & _ & Hplain).
  - apply small_consistent.
  - apply list_elem_of_In. vm_compute. auto 20.
  - reflexivity.
  - exists sets.1, sets.2, st, nid.
    destruct Hplain as (HE & HI & Hone); [reflexivity|].
    vm_compute in Hbase. injection Hbase as <-.
    split; [exact Hcl|]. split; [exact Hst|]. split; [exact Hnid|].
    split; [exact HE|]. split; [exact HI|exact Hone].
Defined.

(** ** Callee resolution *)

Lemma isinstance_excl v c1 c2 : c1 ≠ c2 → isinstance v c1 = true → isinstance v c2 = false.
Proof.
  unfold isinstance. destruct v; try discriminate.
  intros Hne ->%String.eqb_eq. by apply String.eqb_neq.
Qed.

Lemma callee_name_resolved c func dotted :
  getattr (VNode c) "func" = Ok func → resolved_callee func dotted →
  callee_name c = Ok (VStr dotted).
Proof.
  intros Hf [(Hn & Hid)|[(v & a & b & Ha & Hv & Hn & Hid & Hb & ->)
                        |(v & vv & a & b & d & Ha & Hv & Hva & Hvv & Hn & Hid & Hb & Hd & ->)]];
    unfold callee_name; rewrite Hf; simpl.
  - by rewrite Hn.
  - rewrite (isinstance_excl func "Attribute" "Name") by done.
    rewrite Ha, Hv. simpl. rewrite Hn, Hid. simpl. by rewrite Hb.
  - rewrite (isinstance_excl func "Attribute" "Name") by done.
    rewrite Ha, Hv. simpl.
    rewrite (isinstance_excl v "Attribute" "Name") by done.
    rewrite Hva, Hvv. simpl. rewrite Hn. simpl.
    rewrite Hid. simpl. rewrite Hb. simpl. by rewrite Hd.
Qed.

Lemma callee_name_unresolved c func last :
  getattr (VNode c) "func" = Ok func → unresolved_attribute func last →
  callee_name c = Ok (VStr last) ∧ is_yaml_load c = Ok false.
Proof.
  intros Hf (Ha & Hl & v & Hv & Hn & Hdeep).
  unfold callee_name, is_yaml_load. rewrite Hf. simpl.
  rewrite (isinstance_excl func "Attribute" "Name") by done.
  rewrite Ha, Hv, Hl. simpl. rewrite Hn. split.
  - destruct Hdeep as [->|(vv & Hvv & Hnn)]; [done|].
    destruct (isinstance v "Attribute"); [|done].
    rewrite Hvv. simpl. by rewrite Hnn.
  - simpl. destruct (String.eqb last "load"); simpl; by rewrite ?Hn.
Qed.

Lemma callee_name_other c func :
  getattr (VNode c) "func" = Ok func → other_callee func →
  callee_name c = Ok (VStr (cls c)) ∧ is_yaml_load c = Ok false.
Proof.
  intros Hf [Hn Ha]. unfold callee_name, is_yaml_load. rewrite Hf. simpl.
  by rewrite Hn, Ha.
Qed.

Lemma unmarked_call_label E I c callee args :
  cls c = "Call" → callee_name c = Ok (VStr callee) →
  getattr (VNode c) "args" = Ok (VList args) →
  oid c ∉ E → oid c ∉ I →
  node_label E I c =
    Ok ("Call: " +:+ callee +:+ " (args=" +:+ pretty (length args) +:+ ")", None).
Proof.
  intros Hc Hn Ha HE HI. unfold node_label. rewrite Hc. cbn -[call_label].
  unfold call_label. rewrite Hn. simpl. rewrite Ha. simpl.
  by rewrite !bool_decide_eq_false_2.
Qed.

(** C6: the callee of a call is resolved to a dotted name when it is a
    name, an attribute of a name, or an attribute of an attribute of a
    name.  A callee that is neither a name nor an attribute access is
    shown under the kind name of the call node, [Call]; an attribute
    access with a longer chain, or one that does not start at a name, is
    shown under its own last attribute.  In both of these cases the call
    is in neither set and its label is unmarked. *)
Theorem callee_fallbacks tree E I c func args :
  classify tree = Ok (E, I) →
  consistent tree →
  c ∈ subtree tree → cls c = "Call" →
  getattr (VNode c) "func" = Ok func →
  getattr (VNode c) "args" = Ok (VList args) →
  (∀ dotted, resolved_callee func dotted → callee_name c = Ok (VStr dotted)) ∧
  (other_callee func →
     (oid c ∉ E) ∧ (oid c ∉ I) ∧
     node_label E I c =
       Ok ("Call: " +:+ "Call" +:+ " (args=" +:+ pretty (length args) +:+ ")", None)) ∧
  (∀ last, unresolved_attribute func last →
     (oid c ∉ E) ∧ (oid c ∉ I) ∧
     node_label E I c =
       Ok ("Call: " +:+ last +:+ " (args=" +:+ pretty (length args) +:+ ")", None)).
Proof.
  intros Hcl Hcons Hin Hcls Hf Ha.
  assert (Hout : is_yaml_load c = Ok false → (oid c ∉ E) ∧ (oid c ∉ I)).
  { intros Hno. split; intros Hmem;
      destruct (classified_is_yaml_load tree E I c) as [_ Hy]; auto; congruence. }
  split; [|split].
  - intros dotted. by apply callee_name_resolved.
  - intros Ho. destruct (callee_name_other _ _ Hf Ho) as [Hn Hy].
    destruct (Hout Hy) as [HE HI]. rewrite Hcls in Hn.
    split; [done|]. split; [done|]. by apply unmarked_call_label.
  - intros last Hu. destruct (callee_name_unresolved _ _ _ Hf Hu) as [Hn Hy].
    destruct (Hout Hy) as [HE HI].
    split; [done|]. split; [done|]. by apply unmarked_call_label.
Qed.

Lemma callee_fallbacks_witness :
  node_label ∅ ∅ Sample.deep_call =
    Ok ("Call: " +:+ "d" +:+ " (args=" +:+ pretty 0 +:+ ")", None).
Proof.
  assert (Hcl : classify Sample.deep_call = Ok (∅, ∅)) by (vm_compute; reflexivity).
  destruct (callee_fallbacks Sample.deep_call ∅ ∅ Sample.deep_call
              (VNode (Sample.attribute 2
                 (Sample.attribute 3 (Sample.attribute 4 (Sample.name 5 "a" Sample.load) "b")
                    "c") "d")) [] Hcl) as (_ & _ & Hlast).
  - apply deep_call_consistent.
  - apply subtree_self.
  - reflexivity.
  - reflexivity.
  - reflexivity.
  - apply (Hlast "d"). split; [reflexivity|]. split; [reflexivity|].
    eexists. split; [reflexivity|]. split; [reflexivity|].
    right. eexists. split; reflexivity.
Defined.

(** C6, as first stated, fails: the callee of [a.b.c.d()] has none of the
    three resolved shapes, and the call is labelled with the attribute [d],
    not with the kind name of the node. *)
Lemma callee_fallbacks_counterexample :
  cls Sample.deep_call = "Call" ∧
  (∃ func, getattr (VNode Sample.deep_call) "func" = Ok func ∧
           ∀ dotted, ¬ resolved_callee func dotted) ∧
  callee_name Sample.deep_call = Ok (VStr "d") ∧
  node_label ∅ ∅ Sample.deep_call = Ok ("Call: d (args=0)", None) ∧
  node_label ∅ ∅ Sample.deep_call ≠ Ok ("Call: Call (args=0)", None).
Proof.
  split; [reflexivity|]. split; [|split; [reflexivity|split; [reflexivity|discriminate]]].
  eexists. split; [reflexivity|].
  intros dotted [(Hn & _)|[(v & a & b & _ & Hv & Hn & _)
                          |(v & vv & a & b & d & _ & Hv & _ & Hvv & Hn & _)]].
  - discriminate Hn.
  - vm_compute in Hv. injection Hv as <-. discriminate Hn.
  - vm_compute in Hv. injection Hv as <-.
    vm_compute in Hvv. injection Hvv as <-. discriminate Hn.
Qed.

(** ** The walk *)

Lemma function_def_label E I d name k :
  function_def_of name k d →
  node_label E I d = Ok ("FunctionDef: name=" +:+ name +:+ ", args=" +:+ pretty k, None).
Proof.
  intros (Hc & Hn & a & params & Ha & Hp & <-).
  unfold node_label. rewrite Hc. cbn. rewrite Hn. simpl. rewrite Ha. simpl.
  by rewrite Hp.
Qed.

(** The statement of a node of a consistent tree carries that node's label. *)
Lemma graph_statement E I tree st m :
  build_graph E I tree = Ok st → consistent tree → m ∈ subtree tree →
  ∃ nid lbl fill,
    node_ids st !! oid m = Some nid ∧ node_label E I m = Ok (lbl, fill) ∧
    (nid, lbl, fill) ∈ decls_of (dot st) ∧
    ∀ lbl' fill', (nid, lbl', fill') ∈ decls_of (dot st) → (lbl', fill') = (lbl, fill).
Proof.
  intros Hbuild Hcons Hin.
  destruct (build_graph_spec _ _ _ _ Hbuild) as ([_ Hinj] & (Hd & Hr & _) & _ & Hdom & _).
  assert (oid m ∈ dom (node_ids st)) as [nid Hnid]%elem_of_dom.
  { rewrite Hdom, elem_of_list_to_set. by apply list_elem_of_fmap_2. }
  assert (Hlabel : ∀ lbl fill, (nid, lbl, fill) ∈ decls_of (dot st) →
                   node_label E I m = Ok (lbl, fill)).
  { intros lbl fill (m' & Hm' & Hid & Hl)%Hd.
    by rewrite <- (Hcons _ _ Hm' Hin (Hinj _ _ _ Hid Hnid)). }
  destruct (Hr _ _ Hnid) as (lbl & fill & Hs).
  exists nid, lbl, fill. repeat split; auto.
  intros lbl' fill' Hs'. apply Hlabel in Hs, Hs'. congruence.
Qed.

(** C9: two distinct [FunctionDef] nodes of the tree with the same name
    and the same number of parameters are registered under two different
    names, and the graph has a statement for each, both with the label
    made of that name and number. *)
Theorem identical_definitions_distinct_ids tree st d1 d2 name k :
  main tree = Ok st →
  consistent tree →
  d1 ∈ subtree tree → d2 ∈ subtree tree → oid d1 ≠ oid d2 →
  function_def_of name k d1 → function_def_of name k d2 →
  ∃ nid1 nid2,
    node_ids st !! oid d1 = Some nid1 ∧
    node_ids st !! oid d2 = Some nid2 ∧
    nid1 ≠ nid2 ∧
    (nid1, "FunctionDef: name=" +:+ name +:+ ", args=" +:+ pretty k, None)
      ∈ decls_of (dot st) ∧
    (nid2, "FunctionDef: name=" +:+ name +:+ ", args=" +:+ pretty k, None)
      ∈ decls_of (dot st).
Proof.
  unfold main. intros ([E I] & _ & Hbuild)%bind_ok Hcons H1 H2 Hne Hd1 Hd2.
  destruct (graph_statement _ _ _ _ _ Hbuild Hcons H1) as (nid1 & l1 & c1 & Hn1 & Hl1 & Hs1 & _).
  destruct (graph_statement _ _ _ _ _ Hbuild Hcons H2) as (nid2 & l2 & c2 & Hn2 & Hl2 & Hs2 & _).
  rewrite (function_def_label E I _ _ _ Hd1) in Hl1. injection Hl1 as <- <-.
  rewrite (function_def_label E I _ _ _ Hd2) in Hl2. injection Hl2 as <- <-.
  exists nid1, nid2. repeat split; auto.
  intros ->. destruct (build_graph_spec _ _ _ _ Hbuild) as ([_ Hinj] & _). eauto.
Qed.

Lemma identical_definitions_distinct_ids_witness :
  ∃ st nid1 nid2,
    main Sample.twins = Ok st ∧
    node_ids st !! 2%N = Some nid1 ∧ node_ids st !! 6%N = Some nid2 ∧ nid1 ≠ nid2 ∧
    (nid1, "FunctionDef: name=f, args=1", None) ∈ decls_of (dot st) ∧
    (nid2, "FunctionDef: name=f, args=1", None) ∈ decls_of (dot st).
Proof.
  pose (st := match main Sample.twins with Ok s => s | Raise _ => initial_state end).
  assert (Hst : main Sample.twins = Ok st) by (vm_compute; reflexivity).
  destruct (identical_definitions_distinct_ids Sample.twins st
              (Sample.function_def 2 "f"
                 (Sample.arguments 3 [VNode (Node 4 "arg" [("arg", VStr "a")])])
                 [VNode (Node 5 "Pass" [])])
              (Sample.function_def 6 "f"
                 (Sample.arguments 7 [VNode (Node 8 "arg" [("arg", VStr "a")])])
                 [VNode (Node 9 "Pass" [])])
              "f" 1 Hst) as (nid1 & nid2 & H).
  - apply twins_consistent.
  - apply list_elem_of_In. vm_compute. auto 20.
  - apply list_elem_of_In. vm_compute. auto 20.
  - discriminate.
  - split; [reflexivity|]. split; [reflexivity|]. eexists _, _. repeat split; reflexivity.
  - split; [reflexivity|]. split; [reflexivity|]. eexists _, _. repeat split; reflexivity.
  - exists st, nid1, nid2. split; [exact Hst|exact H].
Defined.

(** C9, as first stated, fails for the definitions that are not a
    [FunctionDef]: the two [async def handler(a)] of [async_twins] get two
    names, but the label of both is the bare kind name, in which the name
    [handler] does not occur. *)
Lemma async_definitions_counterexample :
  ∃ st, main Sample.async_twins = Ok st ∧
        node_ids st !! 2%N = Some "node1" ∧ node_ids st !! 6%N = Some "node5" ∧
        filter (fun d => d.1.1 = "node1" ∨ d.1.1 = "node5") (decls_of (dot st)) =
          [("node1", "AsyncFunctionDef", None); ("node5", "AsyncFunctionDef", None)] ∧
        String.index 0 "handler" "AsyncFunctionDef" = None.
Proof.
  eexists. split; [vm_compute; reflexivity|].
  split; [vm_compute; reflexivity|].
  split; [vm_compute; reflexivity|]. split; vm_compute; reflexivity.
Qed.

(** C3: the script sets no maximum depth and has no error of its own for
    deep trees; the only bound is the room the interpreter has for nested
    activations of [add_node].  With room for the depth of the tree the
    walk is that of [add_node]; a tree nested more deeply is never walked
    to the end, and when all its labels can be made the exception that
    stops the walk is the interpreter's [RecursionError]; whatever stops
    a walk is that exception or the exception of a label. *)
Theorem deep_tree_exhausts_stack E I frames n parent_id field_name st :
  (depth n ≤ frames →
     add_node_within E I frames n parent_id field_name st =
       add_node E I n parent_id field_name st) ∧
  (frames < depth n →
     ∃ e, add_node_within E I frames n parent_id field_name st = Raise e) ∧
  (frames < depth n →
     (∀ m, m ∈ subtree n → is_ok (node_label E I m) = true) →
     add_node_within E I frames n parent_id field_name st = Raise RecursionError) ∧
  (∀ e, add_node_within E I frames n parent_id field_name st = Raise e →
        e = RecursionError ∨ ∃ m, m ∈ subtree n ∧ node_label E I m = Raise e).
Proof.
  split; [|split; [|split]].
  - apply add_node_within_enough.
  - apply add_node_within_short.
  - apply add_node_within_overflow.
  - apply add_node_within_raise.
Qed.

Lemma deep_tree_exhausts_stack_witness :
  depth Sample.nested = 8 ∧
  add_node_within ∅ ∅ 8 Sample.nested None None initial_state =
    build_graph ∅ ∅ Sample.nested ∧
  add_node_within ∅ ∅ 7 Sample.nested None None initial_state = Raise RecursionError.
Proof.
  split; [reflexivity|].
  destruct (deep_tree_exhausts_stack ∅ ∅ 8 Sample.nested None None initial_state)
    as (Henough & _).
  destruct (deep_tree_exhausts_stack ∅ ∅ 7 Sample.nested None None initial_state)
    as (_ & _ & Hoverflow & _).
  split.
  - apply Henough. vm_compute. lia.
  - apply Hoverflow; [vm_compute; lia|].
    intros m Hm. apply list_elem_of_In in Hm. vm_compute in Hm.
    repeat (destruct Hm as [<-|Hm]; [reflexivity|]). destruct Hm.
Defined.

(** C3, as first stated, fails: with the interpreter's default limit of
    1000 nested calls, the walk of [x] under 1000 minus signs ends in the
    interpreter's [RecursionError], not in an error of the script. *)
Lemma recursion_limit_counterexample :
  depth (Sample.deeply_nested 1000) = 1004 ∧
  add_node_within ∅ ∅ 1000 (Sample.deeply_nested 1000) None None initial_state =
    Raise RecursionError.
Proof. split; vm_compute; reflexivity. Qed.

(** C1: when the walk reaches again a node that is registered together
    with all the nodes below it, it keeps the registered name, declares no
    node, adds the edge from the new parent, and then follows the fields
    of the node again: the edges of the whole subtree are added once more. *)
Theorem revisit_repeats_subtree_edges E I n p f st nid :
  ids_ok st →
  node_ids st !! oid n = Some nid →
  (∀ m, m ∈ subtree n → oid m ∈ dom (node_ids st)) →
  p ≠ EmptyString →
  add_node E I n (Some p) (Some f) st =
    Ok (mkState (node_counter st) (node_ids st)
                (dot st ++ SEdge p nid f :: (edge_of (node_ids st) <$> visits n))).
Proof.
  intros Hok Hnid Hall Hp.
  rewrite add_node_linear, (register_some _ _ _ _ _ Hnid). simpl.
  apply String.eqb_neq in Hp. rewrite Hp.
  rewrite steps_revisit; simpl.
  - by rewrite <- app_assoc.
  - done.
  - assert (Hchild : ∀ r, r ∈ visits n → oid r.2 ∈ dom (node_ids st)).
    { intros r Hr. apply Hall. rewrite subtree_visits. right. by apply list_elem_of_fmap_2. }
    intros r Hr. split; [|by apply Hchild].
    eapply scoped_closed; [exact Hchild| |exact Hr].
    apply scoped_visits. apply Hall, subtree_self.
Qed.

Lemma revisit_repeats_subtree_edges_witness :
  ∃ st, build_graph ∅ ∅ (Sample.name 3 "x" Sample.load) = Ok st ∧
        add_node ∅ ∅ (Sample.name 3 "x" Sample.load) (Some "node7") (Some "value") st =
          Ok (mkState (node_counter st) (node_ids st)
                (dot st ++ [SEdge "node7" "node0" "value"; SEdge "node0" "node1" "ctx"])).
Proof.
  pose (st := match build_graph ∅ ∅ (Sample.name 3 "x" Sample.load) with
              | Ok s => s | Raise _ => initial_state end).
  assert (Hst : build_graph ∅ ∅ (Sample.name 3 "x" Sample.load) = Ok st)
    by (vm_compute; reflexivity).
  exists st. split; [exact Hst|].
  destruct (build_graph_spec _ _ _ _ Hst) as (Hok & _ & Hroot & Hdom & _).
  rewrite (revisit_repeats_subtree_edges ∅ ∅ (Sample.name 3 "x" Sample.load)
             "node7" "value" st "node0" Hok Hroot).
  - reflexivity.
  - intros m Hm. rewrite Hdom, elem_of_list_to_set. by apply list_elem_of_fmap_2.
  - discriminate.
Defined.

(** C1, as first stated, fails: in [shared_name] one [Name] object is the
    value of two statements, and the edge from it to its context is in
    the graph twice. *)
Lemma revisit_counterexample :
  ∃ st, build_graph ∅ ∅ Sample.shared_name = Ok st ∧
        edges_of (dot st) =
          [ ("node0", "node1", "body[0]"); ("node1", "node2", "value");
            ("node2", "node3", "ctx");
            ("node0", "node4", "body[1]"); ("node4", "node2", "value");
            ("node2", "node3", "ctx") ].
Proof. eexists. split; [vm_compute; reflexivity|reflexivity]. Qed.

(** C5: a graph node has one incoming edge for each structural reference
    to its node in the tree.  For every node but the root that is at
    least one, and the statement that declares the node is directly
    followed by the edge from the parent that discovered it. *)
Theorem incoming_edges E I tree st o nid :
  build_graph E I tree = Ok st →
  node_ids st !! o = Some nid →
  length (filter (fun e => e.1.2 = nid) (edges_of (dot st))) =
    length (filter (fun r => oid r.2 = o) (visits tree)) ∧
  (o ≠ oid tree →
     1 ≤ length (filter (fun r => oid r.2 = o) (visits tree)) ∧
     ∃ pre lbl fill t l post,
       dot st = pre ++ SNode nid lbl fill :: SEdge t nid l :: post).
Proof.
  intros Hbuild Hnid.
  destruct (build_graph_spec _ _ _ _ Hbuild)
    as ([_ Hinj] & (_ & Hr & _) & Hroot & Hdom & Hedges & lbl0 & fill0 & tail & Hdot & Hp).
  split.
  - rewrite Hedges. apply length_filter_fmap.
    intros r Hr'. unfold edge_triple. simpl.
    assert (oid r.2 ∈ dom (node_ids st)) as [x Hx]%elem_of_dom.
    { rewrite Hdom, elem_of_list_to_set, subtree_visits, fmap_cons. right.
      by apply list_elem_of_fmap_2, list_elem_of_fmap_2. }
    unfold nid_of. rewrite Hx. simpl. split.
    + intros ->. eauto.
    + intros Ho. rewrite Ho in Hx. congruence.
  - intros Hne. split.
    + assert (o ∈ dom (node_ids st)) as Ho by (by apply elem_of_dom).
      rewrite Hdom, elem_of_list_to_set, subtree_visits, fmap_cons in Ho.
      apply elem_of_cons in Ho as [?|Ho]; [done|].
      apply list_elem_of_fmap in Ho as (m & -> & Hm).
      apply list_elem_of_fmap in Hm as (r & -> & Hr').
      assert (r ∈ filter (fun r' => oid r'.2 = oid r.2) (visits tree)) as Hf
        by (by apply list_elem_of_filter).
      destruct (filter _ (visits tree)); [by apply elem_of_nil in Hf|simpl; lia].
    + destruct (Hr _ _ Hnid) as (lbl & fill & Hs%elem_of_decls_of).
      rewrite Hdot in Hs.
      assert (SNode nid lbl fill ∈ tail) as Hin.
      { apply elem_of_app in Hs as [Hs|Hs].
        - simpl in Hs.
          repeat (apply elem_of_cons in Hs as [Hs|Hs]; [discriminate Hs|]).
          by apply elem_of_nil in Hs.
        - apply elem_of_cons in Hs as [Heq|Hs]; [|done].
          injection Heq as -> _ _. destruct Hne. eauto. }
      destruct (paired_followed _ _ _ _ Hp Hin) as (pre & t & l & post & ->).
      exists (dot initial_state ++ SNode (node_name 0) lbl0 fill0 :: pre), lbl, fill, t, l, post.
      rewrite Hdot. by rewrite <- app_assoc.
Qed.

Lemma incoming_edges_witness :
  ∃ st, build_graph ∅ ∅ Sample.two_names = Ok st ∧
        node_ids st !! 3%N = Some "node2" ∧
        length (filter (fun e => e.1.2 = "node2") (edges_of (dot st))) = 1 ∧
        ∃ pre lbl fill t l post,
          dot st = pre ++ SNode "node2" lbl fill :: SEdge t "node2" l :: post.
Proof.
  pose (st := match build_graph ∅ ∅ Sample.two_names with
              | Ok s => s | Raise _ => initial_state end).
  assert (Hst : build_graph ∅ ∅ Sample.two_names = Ok st) by (vm_compute; reflexivity).
  assert (Hn : node_ids st !! 3%N = Some "node2") by (vm_compute; reflexivity).
  exists st. split; [exact Hst|]. split; [exact Hn|].
  destruct (incoming_edges ∅ ∅ Sample.two_names st 3 "node2" Hst Hn) as [Hcount Hrest].
  split.
  - rewrite Hcount. vm_compute. reflexivity.
  - apply Hrest. discriminate.
Defined.

(** C5, as first stated, fails: in [x; y] the two names share the [Load]
    object, and its graph node has two incoming edges. *)
Lemma single_incoming_edge_counterexample :
  ∃ st, build_graph ∅ ∅ Sample.two_names = Ok st ∧
        node_ids st !! 100%N = Some "node3" ∧
        filter (fun e => e.1.2 = "node3") (edges_of (dot st)) =
          [("node2", "node3", "ctx"); ("node5", "node3", "ctx")].
Proof. eexists. split; [vm_compute; reflexivity|]. split; vm_compute; reflexivity. Qed.

(** C7: the walk follows the fields of a node in the order in which the
    node lists them, whether they hold one sub-node or a list: the edges
    it adds for a node are the incoming edge, if there is a parent, and
    then, for each reference of [child_refs] in turn, the edge to the
    child followed by the edges of the child's subtree.  A field that
    holds a node is labelled with the field name, and the nodes of a list
    field come in index order, labelled with the field name and index. *)
Theorem edges_follow_field_order E I n parent_id field_name st st' :
  ids_ok st →
  add_node E I n parent_id field_name st = Ok st' →
  ∃ nid,
    node_ids st' !! oid n = Some nid ∧
    edges_of (dot st') =
      edges_of (dot st)
      ++ incoming_edge parent_id field_name nid
      ++ flat_map (fun lc => (nid, nid_of (node_ids st') (oid lc.2), lc.1)
                             :: (edge_triple (node_ids st') <$> visits lc.2))
                  (child_refs n) ∧
    child_refs n =
      flat_map (fun fv =>
                  match fv.2 with
                  | VNode c => [(fv.1, c)]
                  | VList items =>
                      omap (fun ie => match ie.2 with
                                      | VNode c => Some (item_label fv.1 ie.1, c)
                                      | _ => None
                                      end)
                           (imap (fun i e => (i, e)) items)
                  | _ => []
                  end) (fields n).
Proof.
  intros Hok. rewrite add_node_linear.
  intros ([nid st1] & Hreg & Hsteps)%bind_ok. simpl in Hsteps.
  pose proof (register_lookup _ _ _ _ _ _ Hreg) as Hnid1.
  pose proof (steps_kept _ _ _ _ _ Hsteps) as Hk.
  assert (Hnid : node_ids st' !! oid n = Some nid).
  { apply Hk. by rewrite add_edge_ids. }
  exists nid. split; [done|]. split.
  - rewrite (steps_edges _ _ _ _ _ Hsteps).
    + assert (edges_of (dot (add_edge parent_id field_name nid st1)) =
              edges_of (dot st)
              ++ incoming_edge parent_id field_name nid) as ->.
      { rewrite <- (register_edges _ _ _ _ _ _ Hreg). unfold add_edge, incoming_edge.
        destruct parent_id as [p|]; [|by rewrite app_nil_r].
        destruct (String.eqb p _); simpl; [by rewrite app_nil_r|].
        rewrite edges_of_app. by destruct field_name. }
      rewrite <- app_assoc. do 2 f_equal.
      rewrite visits_unfold. induction (child_refs n) as [|[lbl c] l IHl]; [done|].
      simpl. rewrite fmap_app, IHl. do 2 f_equal.
      unfold edge_triple, nid_of. simpl. by rewrite Hnid.
    + by eauto using add_edge_ids_ok, register_ids_ok.
    + apply scoped_visits. rewrite add_edge_ids. by apply elem_of_dom.
  - unfold child_refs.
    induction (fields n) as [|[f v] fs IH]; [done|]. simpl. rewrite <- IH. f_equal.
    unfold field_refs. simpl. destruct v; try done.
    apply (item_refs_index f items 0).
Qed.

Lemma edges_follow_field_order_witness :
  ∃ st, build_graph ∅ ∅ Sample.assignment = Ok st ∧
        edges_of (dot st) =
          [ ("node0", "node1", "body[0]"); ("node1", "node2", "targets[0]");
            ("node2", "node3", "ctx"); ("node1", "node4", "value") ].
Proof.
  pose (st := match build_graph ∅ ∅ Sample.assignment with
              | Ok s => s | Raise _ => initial_state end).
  assert (Hst : build_graph ∅ ∅ Sample.assignment = Ok st) by (vm_compute; reflexivity).
  exists st. split; [exact Hst|].
  destruct (edges_follow_field_order ∅ ∅ Sample.assignment None None initial_state st
              initial_ids_ok Hst) as (nid & Hnid & Hedges & _).
  rewrite Hedges. vm_compute in Hnid. injection Hnid as <-.
  vm_compute. reflexivity.
Defined.

(** C7, as first stated, fails: the assignment [x = 1] lists its targets,
    a list field, before its value, a field holding one node, and the
    walk adds the edge to the target before the edge to the value. *)
Lemma scalar_fields_first_counterexample :
  child_refs (Node 2 "Assign"
                [("targets", VList [VNode (Sample.name 3 "x" Sample.store)]);
                 ("value", VNode (Sample.constant 4 (VInt 1)));
                 ("type_comment", VNone)]) =
    [ ("targets[0]", Sample.name 3 "x" Sample.store);
      ("value", Sample.constant 4 (VInt 1)) ] ∧
  ∃ st, build_graph ∅ ∅ Sample.assignment = Ok st ∧
        edges_of (dot st) =
          [ ("node0", "node1", "body[0]"); ("node1", "node2", "targets[0]");
            ("node2", "node3", "ctx"); ("node1", "node4", "value") ].
Proof.
  split; [reflexivity|]. eexists. split; [vm_compute; reflexivity|reflexivity].
Qed.

(** * Further properties *)

(** ** The visitor *)

(** X1: a visit leaves the current function name as it found it and
    appends, to what was recorded before, the calls to [yaml.load] of the
    subtree in pre-order, each with the name of the innermost enclosing
    [FunctionDef] (the name in force at the start for calls outside any);
    a [ClassDef] or any other node does not change the name. *)
Theorem visit_records_innermost_function n : ∀ s s',
  visit n s = Ok s' →
  current_func s' = current_func s ∧
  yaml_load_calls s' = yaml_load_calls s ++ calls_in (current_func s) n.
Proof.
  intros s s' Hv.
  destruct (visit_appends n s s' Hv) as [Hcur Hcalls].
  split.
  - exact Hcur.
  - rewrite Hcalls. reflexivity.
Qed.

Lemma visit_records_innermost_function_witness :
  ∃ s', visit Sample.scopes (mkFinder VNone []) = Ok s' ∧
        current_func s' = VNone ∧
        (yaml_load_calls s').*2 = [VStr "helper"; VStr "_external_load"].
Proof.
  pose (s' := match visit Sample.scopes (mkFinder VNone []) with
              | Ok s => s | Raise _ => mkFinder VNone [] end).
  assert (Hv : visit Sample.scopes (mkFinder VNone []) = Ok s') by (vm_compute; reflexivity).
  destruct (visit_records_innermost_function _ _ _ Hv) as [Hc Hl].
  exists s'. split; [exact Hv|]. split; [exact Hc|].
  rewrite Hl. vm_compute. reflexivity.
Defined.

(** X3: after the loop every recorded call is in one of the two sets and
    the sets hold nothing else; when no call object is recorded twice the
    two sets are disjoint. *)
Theorem classification_partitions_calls calls E I :
  classify_calls (∅, ∅) calls = Ok (E, I) →
  (∀ o, o ∈ E ∪ I ↔ o ∈ oid <$> calls.*1) ∧
  (NoDup (oid <$> calls.*1) → E ## I).
Proof.
  intros (HE & HI & Hall)%classify_calls_spec. split.
  - intros o. rewrite elem_of_union, HE, HI. split.
    + intros [[[]%not_elem_of_empty|(e & He & <- & _)]
             |[[]%not_elem_of_empty|(e & He & <- & _)]];
        by apply list_elem_of_fmap_2, list_elem_of_fmap_2.
    + intros (c & -> & (e & -> & He)%list_elem_of_fmap)%list_elem_of_fmap.
      destruct (Hall e He) as [[] Hb]; [left|right]; right; by exists e.
  - intros Hnd o Ho1 Ho2.
    apply HE in Ho1 as [[]%not_elem_of_empty|(e1 & He1 & Ho1 & Hb1)].
    apply HI in Ho2 as [[]%not_elem_of_empty|(e2 & He2 & Ho2 & Hb2)].
    rewrite <- list_fmap_compose in Hnd.
    assert (e1 = e2) as ->.
    { eapply (NoDup_fmap_eq (oid ∘ fst)); [done..|]. simpl. congruence. }
    congruence.
Qed.

Lemma classification_partitions_calls_witness :
  ∃ calls E I,
    find_yaml_load Sample.server = Ok calls ∧
    classify_calls (∅, ∅) calls = Ok (E, I) ∧
    (∀ o, o ∈ E ∪ I ↔ o ∈ [5%N; 13%N; 19%N]) ∧ E ## I.
Proof.
  pose (calls := match find_yaml_load Sample.server with Ok l => l | Raise _ => [] end).
  pose (sets := match classify_calls (∅, ∅) calls with Ok s => s | Raise _ => (∅, ∅) end).
  assert (Hfind : find_yaml_load Sample.server = Ok calls) by (vm_compute; reflexivity).
  assert (Hcl : classify_calls (∅, ∅) calls = Ok (sets.1, sets.2))
    by (vm_compute; reflexivity).
  exists calls, sets.1, sets.2. split; [exact Hfind|]. split; [exact Hcl|].
  destruct (classification_partitions_calls calls sets.1 sets.2 Hcl) as [Hcover Hdisj].
  split; [exact Hcover|].
  apply Hdisj. nodup_by_cases.
Defined.

(** ** Labels *)

Lemma length_const_payload s : String.length (const_payload s) ≤ 20.
Proof.
  unfold const_payload.
  destruct (Nat.ltb_spec 20 (String.length (escape_newlines s))); [|lia].
  rewrite length_string_app, length_str_take. change (String.length "...") with 3. lia.
Qed.

Lemma const_payload_clean s : newline ∉ String.list_ascii_of_string (const_payload s).
Proof.
  unfold const_payload.
  destruct (Nat.ltb 20 (String.length (escape_newlines s))); [|apply escape_newlines_clean].
  rewrite list_ascii_of_string_app, not_elem_of_app. split.
  - apply str_take_clean, escape_newlines_clean.
  - simpl. rewrite !not_elem_of_cons. repeat split; try discriminate. apply not_elem_of_nil.
Qed.

Lemma escape_newlines_id s :
  newline ∉ String.list_ascii_of_string s → escape_newlines s = s.
Proof.
  induction s as [|c s IH]; simpl; [done|].
  rewrite not_elem_of_cons. intros [Hc Hs].
  destruct (Ascii.eqb_spec c newline) as [->|_]; [done|]. by rewrite IH.
Qed.

(** X4: whatever the string value of a constant, the text between the
    quotes of its label is at most 20 characters long and contains no
    newline. *)
Theorem string_constant_payload_bounded E I n s :
  cls n = "Constant" →
  getattr (VNode n) "value" = Ok (VStr s) →
  ∃ payload,
    node_label E I n = Ok ("Constant: " +:+ dquote +:+ payload +:+ dquote, None) ∧
    String.length payload ≤ 20 ∧
    newline ∉ String.list_ascii_of_string payload.
Proof.
  intros Hc Hv. exists (const_payload s).
  split; [by apply constant_label|]. split; [apply length_const_payload|].
  apply const_payload_clean.
Qed.

Lemma string_constant_payload_bounded_witness :
  ∃ payload,
    node_label ∅ ∅ (Sample.constant 1 (VStr Sample.eleven_newlines)) =
      Ok ("Constant: " +:+ dquote +:+ payload +:+ dquote, None) ∧
    String.length payload ≤ 20 ∧
    newline ∉ String.list_ascii_of_string payload.
Proof.
  apply (string_constant_payload_bounded ∅ ∅
           (Sample.constant 1 (VStr Sample.eleven_newlines)) Sample.eleven_newlines);
    reflexivity.
Defined.

(** X5: a string constant of at most 20 characters without a newline is
    shown as it is, between quotes; a string of exactly 20 characters is
    not cut. *)
Theorem short_constant_shown_verbatim E I n s :
  cls n = "Constant" →
  getattr (VNode n) "value" = Ok (VStr s) →
  newline ∉ String.list_ascii_of_string s →
  String.length s ≤ 20 →
  node_label E I n = Ok ("Constant: " +:+ dquote +:+ s +:+ dquote, None).
Proof.
  intros Hc Hv Hnl Hlen. rewrite (constant_label E I n s Hc Hv).
  unfold const_payload. rewrite (escape_newlines_id s Hnl).
  destruct (Nat.ltb_spec 20 (String.length s)); [lia|done].
Qed.

Lemma short_constant_shown_verbatim_witness :
  String.length "exactly twenty chars" = 20 ∧
  node_label ∅ ∅ (Sample.constant 1 (VStr "exactly twenty chars")) =
    Ok ("Constant: " +:+ dquote +:+ "exactly twenty chars" +:+ dquote, None).
Proof.
  split; [reflexivity|].
  apply (short_constant_shown_verbatim ∅ ∅
           (Sample.constant 1 (VStr "exactly twenty chars")) "exactly twenty chars").
  - reflexivity.
  - reflexivity.
  - simpl. rewrite !not_elem_of_cons. repeat split; try discriminate. apply not_elem_of_nil.
  - vm_compute. lia.
Defined.

Lemma string_app_empty (s : string) : s +:+ EmptyString = s.
Proof.
  induction s as [|a s IH]; [done|].
  change (String a (s +:+ EmptyString) = String a s). by rewrite IH.
Qed.

(** Reads the chains of binds that ended well down to their last equations. *)
Ltac unbind :=
  repeat match goal with
         | H : (_ ≫= _) = Ok _ |- _ => apply bind_ok in H as (? & ? & H)
         | H : (if ?b then _ else _) = Ok _ |- _ => destruct b
         | H : match ?v with _ => _ end = Ok _ |- _ => destruct v
         | H : Raise _ = Ok _ |- _ => discriminate H
         | H : Ok _ = Ok _ |- _ => injection H as ?; subst
         end.

(** X6: the label of a node begins with the name of its kind. *)
Theorem label_starts_with_kind E I n lbl fill :
  node_label E I n = Ok (lbl, fill) → starts_with (cls n) lbl.
Proof.
  unfold node_label, call_label.
  repeat match goal with
  | |- (if String.eqb (cls n) ?c then _ else _) = _ → _ =>
      destruct (String.eqb_spec (cls n) c) as [Hc|_];
      [rewrite Hc; clear Hc; intros H; unbind; eexists; reflexivity|]
  end.
  intros [= <- <-]. exists EmptyString. by rewrite string_app_empty.
Qed.

Lemma label_starts_with_kind_witness :
  starts_with "Call" "Call: yaml.load (args=1) [external]".
Proof.
  apply (label_starts_with_kind {[ 13%N ]} ∅ Sample.tainted_call _ (Some "lightcoral")).
  vm_compute. reflexivity.
Defined.

(** X7: a node of a kind for which the script makes no label of its own
    is labelled with the bare name of its kind, whatever its fields hold;
    labelling it cannot fail. *)
Theorem other_kinds_bare_label E I n :
  cls n ∉ labelled_kinds → node_label E I n = Ok (cls n, None).
Proof.
  intros Hother. unfold node_label.
  repeat match goal with
  | |- (if String.eqb (cls n) ?c then _ else _) = _ =>
      destruct (String.eqb_spec (cls n) c) as [Hc|_];
      [exfalso; apply Hother; rewrite Hc; unfold labelled_kinds;
       repeat first [apply list_elem_of_here | apply list_elem_of_further]|]
  end.
  reflexivity.
Qed.

Lemma other_kinds_bare_label_witness :
  node_label ∅ ∅ (Node 5 "Pass" []) = Ok ("Pass", None).
Proof.
  apply (other_kinds_bare_label ∅ ∅ (Node 5 "Pass" [])).
  intros H%list_elem_of_In. simpl in H. intuition discriminate.
Defined.

(** X8: only a call that is in one of the two sets gets a fill colour:
    light coral when it is in the external set, light blue when it is in
    the internal set only.  No node of another kind is coloured. *)
Theorem colour_only_on_classified_calls E I n lbl colour :
  node_label E I n = Ok (lbl, Some colour) →
  cls n = "Call" ∧
  ((colour = "lightcoral" ∧ oid n ∈ E)
   ∨ (colour = "lightblue" ∧ oid n ∈ I ∧ (oid n ∉ E))).
Proof.
  intros Hl. pose proof (label_early _ _ _ _ _ Hl) as Hm.
  unfold marked in Hm. apply andb_true_iff in Hm as [Hc%String.eqb_eq _].
  split; [done|].
  destruct (call_node_label _ _ _ _ _ Hc Hl)
    as (base & _ & [[[= _ <-] ?]|[([= _ <-] & ? & ?)|[[=] _]]]); auto.
Qed.

Lemma colour_only_on_classified_calls_witness :
  cls Sample.tainted_call = "Call" ∧
  (("lightcoral" = "lightcoral" ∧ oid Sample.tainted_call ∈ ({[ 13%N ]} : gset N))
   ∨ ("lightcoral" = "lightblue" ∧ oid Sample.tainted_call ∈ (∅ : gset N)
      ∧ (oid Sample.tainted_call ∉ ({[ 13%N ]} : gset N)))).
Proof.
  apply (colour_only_on_classified_calls {[ 13%N ]} ∅ Sample.tainted_call
           "Call: yaml.load (args=1) [external]" "lightcoral").
  vm_compute. reflexivity.
Defined.

Lemma yaml_load_callee c :
  is_yaml_load c = Ok true → callee_name c = Ok (VStr "yaml.load").
Proof.
  unfold is_yaml_load, callee_name.
  destruct (getattr (VNode c) "func") as [func|] eqn:Hf; simpl; [|done].
  destruct (isinstance func "Attribute") eqn:Ha; [|done].
  rewrite (isinstance_excl func "Attribute" "Name") by done.
  destruct (getattr func "attr") as [a|] eqn:Hattr; simpl; [|done].
  destruct (eq_str a "load") eqn:Hload; [|done]. apply eq_str_true in Hload as ->.
  destruct (getattr func "value") as [v|] eqn:Hv; simpl; [|done].
  destruct (isinstance v "Name") eqn:Hn; [|done].
  destruct (getattr v "id") as [i|] eqn:Hi; simpl; [|done].
  intros [= ->%eq_str_true]. reflexivity.
Qed.

(** X9: every call of the tree that is in one of the two sets is shown as
    a call to [yaml.load]: its label is [Call: yaml.load (args=k)] for the
    number [k] of its arguments, followed by the external mark when the
    call is in the external set and by the internal mark otherwise. *)
Theorem classified_call_shows_yaml_load tree E I c args :
  classify tree = Ok (E, I) →
  consistent tree →
  c ∈ subtree tree →
  oid c ∈ E ∪ I →
  getattr (VNode c) "args" = Ok (VList args) →
  (oid c ∈ E ∧
   node_label E I c =
     Ok (("Call: yaml.load (args=" +:+ pretty (length args) +:+ ")") +:+ " [external]",
         Some "lightcoral"))
  ∨ ((oid c ∉ E) ∧
     node_label E I c =
       Ok (("Call: yaml.load (args=" +:+ pretty (length args) +:+ ")") +:+ " [internal]",
           Some "lightblue")).
Proof.
  intros Hcl Hcons Hin Hmem%elem_of_union Hargs.
  destruct (classified_is_yaml_load _ _ _ _ Hcl Hcons Hin Hmem) as [Hc Hy].
  pose proof (yaml_load_callee _ Hy) as Hn.
  unfold node_label. rewrite Hc. cbn -[call_label].
  unfold call_label. rewrite Hn. simpl. rewrite Hargs. simpl.
  destruct (bool_decide_reflect (oid c ∈ E)) as [HE|HE].
  - left. split; [done|reflexivity].
  - right. destruct Hmem as [?|HI]; [done|].
    rewrite bool_decide_eq_true_2 by done. split; [done|reflexivity].
Qed.

Lemma classified_call_shows_yaml_load_witness :
  ∃ E I, classify Sample.small = Ok (E, I) ∧
         (3%N ∉ E) ∧
         node_label E I (Sample.call 3 (Sample.attribute 4 (Sample.name 5 "yaml" Sample.load)
                                          "load")
                           [VNode (Sample.name 6 "p" Sample.load)]) =
           Ok ("Call: yaml.load (args=1) [internal]", Some "lightblue").
Proof.
  pose (sets := match classify Sample.small with Ok s => s | Raise _ => (∅, ∅) end).
  assert (Hcl : classify Sample.small = Ok (sets.1, sets.2)) by (vm_compute; reflexivity).
  exists sets.1, sets.2. split; [exact Hcl|].
  destruct (classified_call_shows_yaml_load Sample.small sets.1 sets.2
              (Sample.call 3 (Sample.attribute 4 (Sample.name 5 "yaml" Sample.load) "load")
                 [VNode (Sample.name 6 "p" Sample.load)])
              [VNode (Sample.name 6 "p" Sample.load)] Hcl) as [[HE _]|[HE Hl]].
  - apply small_consistent.
  - apply list_elem_of_In. vm_compute. auto 20.
  - vm_compute. set_solver.
  - reflexivity.
  - vm_compute in HE. set_solver.
  - split; [exact HE|exact Hl].
Defined.

(** X15: the label of an assignment names the target only when there is
    exactly one target and it is a name; with several targets, or a
    target of another kind (a tuple, an attribute, a subscript), the label
    is the bare [Assign], and labelling does not fail. *)
Theorem assign_label_names_single_target E I n targets :
  cls n = "Assign" →
  getattr (VNode n) "targets" = Ok (VList targets) →
  (length targets ≠ 1 → node_label E I n = Ok ("Assign", None)) ∧
  (∀ t, targets = [t] → isinstance t "Name" = false →
        node_label E I n = Ok ("Assign", None)) ∧
  (∀ t i, targets = [t] → isinstance t "Name" = true →
          getattr t "id" = Ok (VStr i) →
          node_label E I n = Ok ("Assign: " +:+ i +:+ " = ...", None)).
Proof.
  intros Hc Ht. unfold node_label. rewrite Hc. cbn -[py_len item0]. rewrite Ht. simpl.
  split; [|split].
  - intros Hlen. by destruct (Nat.eqb_spec (length targets) 1).
  - intros t -> Hn. simpl. by rewrite Hn.
  - intros t i -> Hn Hi. simpl. rewrite Hn. simpl. by rewrite Hi.
Qed.

Lemma assign_label_names_single_target_witness :
  node_label ∅ ∅ (Node 2 "Assign"
                    [("targets", VList [VNode (Sample.name 3 "x" Sample.store)]);
                     ("value", VNode (Sample.constant 4 (VInt 1)));
                     ("type_comment", VNone)]) =
    Ok ("Assign: " +:+ "x" +:+ " = ...", None).
Proof.
  refine (proj2 (proj2 (assign_label_names_single_target ∅ ∅ _
                          [VNode (Sample.name 3 "x" Sample.store)] _ _))
                (VNode (Sample.name 3 "x" Sample.store)) "x" _ _ _);
    reflexivity.
Defined.

(** ** The graph *)

Section Numbering.

Variables E I : gset N.

Lemma register_numbered n st nid st1 :
  register E I n st = Ok (nid, st1) → numbered st → numbered st1.
Proof.
  destruct (node_ids st !! oid n) as [x|] eqn:Hl.
  { rewrite (register_some _ _ _ _ _ Hl). by intros [= <- <-]. }
  intros (lbl & fill & _ & -> & ->)%register_new [Hnames Hsize]; [|done].
  unfold numbered, decl_names in *. cbn [dot node_counter node_ids]. split.
  - by rewrite decls_of_app, !fmap_app, Hnames, seq_S, fmap_app.
  - rewrite dom_insert_L, size_union, size_singleton, Hsize; [lia|].
    apply not_elem_of_dom in Hl. set_solver.
Qed.

Lemma add_edge_numbered p f nid st : numbered st → numbered (add_edge p f nid st).
Proof.
  unfold numbered, decl_names. rewrite add_edge_ids, add_edge_counter.
  assert (decls_of (dot (add_edge p f nid st)) = decls_of (dot st)) as ->; [|done].
  unfold add_edge. destruct p as [p|]; [|done]. destruct (String.eqb p _); [done|].
  simpl. rewrite decls_of_app. simpl. by rewrite app_nil_r.
Qed.

Lemma steps_numbered l : ∀ st st',
  foldM (step E I) l st = Ok st' → numbered st → numbered st'.
Proof.
  induction l as [|r l IH]; intros st st'; simpl; [by intros [= <-]|].
  intros (s1 & (cid & st1 & Hr & ->)%step_unfold & H2)%bind_ok Hn.
  eauto using add_edge_numbered, register_numbered.
Qed.

Lemma register_grows n st nid st1 : register E I n st = Ok (nid, st1) → grows st st1.
Proof.
  intros Hr. split; [|split].
  - destruct (node_ids st !! oid n) as [x|] eqn:Hl.
    + rewrite (register_some _ _ _ _ _ Hl) in Hr. injection Hr as <- <-.
      exists []. by rewrite app_nil_r.
    + apply register_new in Hr as (lbl & fill & _ & -> & ->); [|done]. by eexists.
  - intros o x. by eapply register_mono.
  - destruct (node_ids st !! oid n) as [x|] eqn:Hl.
    + rewrite (register_some _ _ _ _ _ Hl) in Hr. by injection Hr as <- <-.
    + apply register_new in Hr as (lbl & fill & _ & -> & ->); [|done]. simpl. lia.
Qed.

Lemma add_edge_grows p f nid st : grows st (add_edge p f nid st).
Proof.
  split; [|split].
  - unfold add_edge. destruct p as [p|]; [destruct (String.eqb p _)|];
      first [by eexists | exists []; by rewrite app_nil_r].
  - intros o x. by rewrite add_edge_ids.
  - by rewrite add_edge_counter.
Qed.

Lemma grows_refl st : grows st st.
Proof.
  split; [exists []; by rewrite app_nil_r|]. split; [by intros o x|done].
Qed.

Lemma grows_trans st1 st2 st3 : grows st1 st2 → grows st2 st3 → grows st1 st3.
Proof.
  intros ([t1 H1] & Hk1 & Hc1) ([t2 H2] & Hk2 & Hc2). split; [|split].
  - exists (t1 ++ t2). by rewrite H2, H1, app_assoc.
  - intros o x Ho. by apply Hk2, Hk1.
  - lia.
Qed.

Lemma steps_grow l st st' : foldM (step E I) l st = Ok st' → grows st st'.
Proof.
  apply (foldM_rel (step E I) grows); [apply grows_refl|apply grows_trans|].
  intros r s s' _ (cid & st1 & Hr & ->)%step_unfold.
  eapply grows_trans; [by eapply register_grows|apply add_edge_grows].
Qed.

End Numbering.

Lemma initial_numbered : numbered initial_state.
Proof. split; [done|]. simpl. by rewrite dom_empty_L, size_empty. Qed.

(** X10: the node statements of the finished graph declare the names
    [node0], [node1], ... in this order, one for each distinct identity of
    the tree: the counter ends at the number of distinct identities. *)
Theorem graph_nodes_numbered E I tree st :
  build_graph E I tree = Ok st →
  decl_names (dot st) = node_name <$> seq 0 (node_counter st) ∧
  node_counter st = size (list_to_set (oid <$> subtree tree) : gset N).
Proof.
  intros Hbuild.
  destruct (build_graph_spec _ _ _ _ Hbuild) as (_ & _ & _ & Hdom & _).
  unfold build_graph in Hbuild. rewrite add_node_linear in Hbuild.
  apply bind_ok in Hbuild as ([nid st1] & Hreg & Hsteps). simpl in Hsteps.
  assert (numbered st) as [Hnames Hsize].
  { eapply steps_numbered; [done|].
    eapply register_numbered; [done|apply initial_numbered]. }
  split; [done|]. by rewrite <- Hdom.
Qed.

Lemma graph_nodes_numbered_witness :
  ∃ st, build_graph ∅ ∅ Sample.two_names = Ok st ∧
        decl_names (dot st) = ["node0"; "node1"; "node2"; "node3"; "node4"; "node5"] ∧
        length (subtree Sample.two_names) = 7.
Proof.
  pose (st := match build_graph ∅ ∅ Sample.two_names with
              | Ok s => s | Raise _ => initial_state end).
  assert (Hst : build_graph ∅ ∅ Sample.two_names = Ok st) by (vm_compute; reflexivity).
  exists st. split; [exact Hst|].
  destruct (graph_nodes_numbered _ _ _ _ Hst) as [Hnames _].
  split; [|reflexivity]. rewrite Hnames. vm_compute. reflexivity.
Defined.

(** X11: the finished graph has one edge for each structural reference of
    the tree, that is, one less than the nodes of the unfolded tree, and
    both ends of every edge are declared nodes. *)
Theorem edges_join_declared_nodes E I tree st :
  build_graph E I tree = Ok st →
  length (edges_of (dot st)) = length (subtree tree) - 1 ∧
  ∀ t h l, (t, h, l) ∈ edges_of (dot st) →
           t ∈ decl_names (dot st) ∧ h ∈ decl_names (dot st).
Proof.
  intros Hbuild.
  destruct (build_graph_spec _ _ _ _ Hbuild)
    as (_ & (_ & Hr & _) & Hroot & Hdom & Hedges & _).
  split.
  { rewrite Hedges, length_fmap, subtree_visits. cbn [length].
    rewrite !length_fmap. lia. }
  assert (Hchild : ∀ r, r ∈ visits tree → oid r.2 ∈ dom (node_ids st)).
  { intros r Hr'. rewrite Hdom, elem_of_list_to_set, subtree_visits, fmap_cons. right.
    by apply list_elem_of_fmap_2, list_elem_of_fmap_2. }
  assert (Hparent : ∀ r, r ∈ visits tree → r.1.1 ∈ dom (node_ids st)).
  { apply scoped_closed; [done|]. apply scoped_visits. by apply elem_of_dom. }
  assert (Hdecl : ∀ o, o ∈ dom (node_ids st) → nid_of (node_ids st) o ∈ decl_names (dot st)).
  { intros o [x Hx]%elem_of_dom. unfold nid_of. rewrite Hx. simpl.
    destruct (Hr _ _ Hx) as (lbl & fill & Hs). unfold decl_names.
    apply list_elem_of_fmap. exists (x, lbl). split; [done|].
    apply list_elem_of_fmap. by exists (x, lbl, fill). }
  intros t h l. rewrite Hedges.
  intros (r & [= -> -> ->] & Hr')%list_elem_of_fmap. split; auto.
Qed.

Lemma edges_join_declared_nodes_witness :
  ∃ st, build_graph ∅ ∅ Sample.two_names = Ok st ∧
        length (edges_of (dot st)) = 6 ∧
        "node5" ∈ decl_names (dot st) ∧ "node3" ∈ decl_names (dot st).
Proof.
  pose (st := match build_graph ∅ ∅ Sample.two_names with
              | Ok s => s | Raise _ => initial_state end).
  assert (Hst : build_graph ∅ ∅ Sample.two_names = Ok st) by (vm_compute; reflexivity).
  exists st. split; [exact Hst|].
  destruct (edges_join_declared_nodes _ _ _ _ Hst) as [Hlen Hends].
  split; [rewrite Hlen; reflexivity|].
  apply (Hends "node5" "node3" "ctx").
  apply list_elem_of_In. vm_compute. auto 10.
Defined.

Lemma subtree_depth n : ∀ m, m ∈ subtree n → depth m ≤ depth n.
Proof.
  induction n as [n IH] using node_children_ind. intros m.
  intros [->|(c & Hc & Hm)]%subtree_inv; [done|].
  pose proof (IH c Hc m Hm). pose proof (depth_child n c Hc). lia.
Qed.

Lemma visits_below n r : r ∈ visits n → r.2 ∈ subtree n ∧ depth r.2 < depth n.
Proof.
  intros Hr.
  assert (r.2 ∈ (visits n).*2) as Hin by (by apply list_elem_of_fmap_2).
  split; [rewrite subtree_visits; by right|].
  assert ((visits n).*2 = flat_map subtree (iter_child_nodes n)) as Heq.
  { pose proof (subtree_visits n) as H1. rewrite subtree_unfold in H1. by injection H1. }
  rewrite Heq in Hin. apply list_elem_of_In, in_flat_map in Hin as (c & Hc & Hm).
  rewrite <- !list_elem_of_In in *.
  pose proof (subtree_depth c _ Hm). pose proof (depth_child n c Hc). lia.
Qed.

(** X12: in the graph of a tree no edge leads to the root: the first node
    declared, [node0], is never the head of an edge. *)
Theorem root_has_no_incoming_edge E I tree st :
  build_graph E I tree = Ok st →
  consistent tree →
  node_ids st !! oid tree = Some (node_name 0) ∧
  ∀ t h l, (t, h, l) ∈ edges_of (dot st) → h ≠ node_name 0.
Proof.
  intros Hbuild Hcons.
  destruct (build_graph_spec _ _ _ _ Hbuild) as ([_ Hinj] & _ & Hroot & Hdom & Hedges & _).
  split; [done|].
  intros t h l. rewrite Hedges.
  intros (r & [= -> -> ->] & Hr)%list_elem_of_fmap Hh.
  destruct (visits_below _ _ Hr) as [Hsub Hdepth].
  assert (oid r.2 ∈ dom (node_ids st)) as [x Hx]%elem_of_dom.
  { rewrite Hdom, elem_of_list_to_set. by apply list_elem_of_fmap_2. }
  unfold nid_of in Hh. rewrite Hx in Hh. simpl in Hh. subst x.
  pose proof (Hinj _ _ _ Hx Hroot) as Ho.
  rewrite (Hcons _ _ Hsub (subtree_self tree) Ho) in Hdepth. lia.
Qed.

Lemma root_has_no_incoming_edge_witness :
  ∃ st, build_graph ∅ ∅ Sample.twins = Ok st ∧
        node_ids st !! 1%N = Some "node0" ∧
        ∀ t h l, (t, h, l) ∈ edges_of (dot st) → h ≠ "node0".
Proof.
  pose (st := match build_graph ∅ ∅ Sample.twins with
              | Ok s => s | Raise _ => initial_state end).
  assert (Hst : build_graph ∅ ∅ Sample.twins = Ok st) by (vm_compute; reflexivity).
  exists st. split; [exact Hst|].
  exact (root_has_no_incoming_edge ∅ ∅ Sample.twins st Hst twins_consistent).
Defined.

(** X13: a call of [add_node] only adds to the graph: the statements
    present before are still there, in place, followed by the new ones;
    every registered identity keeps its name; the counter does not
    decrease. *)
Theorem add_node_only_appends E I n parent_id field_name st st' :
  add_node E I n parent_id field_name st = Ok st' →
  (∃ tail, dot st' = dot st ++ tail) ∧
  (∀ o x, node_ids st !! o = Some x → node_ids st' !! o = Some x) ∧
  node_counter st ≤ node_counter st'.
Proof.
  rewrite add_node_linear.
  intros ([nid st1] & Hreg & Hsteps)%bind_ok. simpl in Hsteps.
  apply (grows_trans st st1 st'); [by eapply register_grows|].
  eapply grows_trans; [apply add_edge_grows|by eapply steps_grow].
Qed.

Lemma add_node_only_appends_witness :
  ∃ st st',
    build_graph ∅ ∅ (Sample.name 3 "x" Sample.load) = Ok st ∧
    add_node ∅ ∅ (Sample.expr 2 (Sample.name 3 "x" Sample.load)) (Some "node9") (Some "body[0]")
             st = Ok st' ∧
    (∃ tail, dot st' = dot st ++ tail) ∧
    node_ids st' !! 3%N = Some "node0" ∧
    node_counter st ≤ node_counter st'.
Proof.
  pose (st := match build_graph ∅ ∅ (Sample.name 3 "x" Sample.load) with
              | Ok s => s | Raise _ => initial_state end).
  pose (st' := match add_node ∅ ∅ (Sample.expr 2 (Sample.name 3 "x" Sample.load))
                       (Some "node9") (Some "body[0]") st with
               | Ok s => s | Raise _ => initial_state end).
  assert (Hst : build_graph ∅ ∅ (Sample.name 3 "x" Sample.load) = Ok st)
    by (vm_compute; reflexivity).
  assert (Hst' : add_node ∅ ∅ (Sample.expr 2 (Sample.name 3 "x" Sample.load))
                   (Some "node9") (Some "body[0]") st = Ok st')
    by (vm_compute; reflexivity).
  exists st, st'. split; [exact Hst|]. split; [exact Hst'|].
  destruct (add_node_only_appends _ _ _ _ _ _ _ Hst') as (Htail & Hkept & Hcount).
  split; [exact Htail|]. split; [|exact Hcount].
  apply Hkept. vm_compute. reflexivity.
Defined.

(** X14: in the graph of a tree whose calls were classified, the coloured
    node statements are exactly those of the calls in one of the two
    sets. *)
Theorem coloured_nodes_are_classified_calls tree E I st x :
  classify tree = Ok (E, I) →
  build_graph E I tree = Ok st →
  consistent tree →
  (∃ lbl colour, (x, lbl, Some colour) ∈ decls_of (dot st))
  ↔ (∃ c, c ∈ subtree tree ∧ oid c ∈ E ∪ I ∧ node_ids st !! oid c = Some x).
Proof.
  intros Hcl Hbuild Hcons.
  pose proof (build_graph_spec _ _ _ _ Hbuild) as (_ & (Hd & _ & _) & _).
  split.
  - intros (lbl & colour & (m & Hm & Hid & Hl)%Hd). exists m.
    split; [done|]. split; [|done].
    apply label_early in Hl. unfold marked in Hl.
    apply andb_true_iff in Hl as [_ Hl]. apply orb_true_iff in Hl.
    rewrite !bool_decide_eq_true in Hl. by apply elem_of_union.
  - intros (c & Hc & Hmem%elem_of_union & Hid).
    destruct (classified_is_yaml_load _ _ _ _ Hcl Hcons Hc Hmem) as [Hcall _].
    destruct (graph_statement _ _ _ _ _ Hbuild Hcons Hc)
      as (nid & lbl & fill & Hnid & Hl & Hs & _).
    rewrite Hid in Hnid. injection Hnid as <-.
    destruct (call_node_label _ _ _ _ _ Hcall Hl)
      as (base & _ & [[[= -> ->] _]|[([= -> ->] & _)|([= -> ->] & HE & HI)]]); eauto.
    destruct Hmem; done.
Qed.

Lemma coloured_nodes_are_classified_calls_witness :
  ∃ E I st,
    classify Sample.small = Ok (E, I) ∧ build_graph E I Sample.small = Ok st ∧
    ((∃ lbl colour, ("node2", lbl, Some colour) ∈ decls_of (dot st))
     ↔ (∃ c, c ∈ subtree Sample.small ∧ oid c ∈ E ∪ I ∧
             node_ids st !! oid c = Some "node2")).
Proof.
  pose (sets := match classify Sample.small with Ok s => s | Raise _ => (∅, ∅) end).
  pose (st := match build_graph sets.1 sets.2 Sample.small with
              | Ok s => s | Raise _ => initial_state end).
  assert (Hcl : classify Sample.small = Ok (sets.1, sets.2)) by (vm_compute; reflexivity).
  assert (Hst : build_graph sets.1 sets.2 Sample.small = Ok st) by (vm_compute; reflexivity).
  exists sets.1, sets.2, st. split; [exact Hcl|]. split; [exact Hst|].
  exact (coloured_nodes_are_classified_calls Sample.small sets.1 sets.2 st "node2"
           Hcl Hst small_consistent).
Defined.
